(** * a11y.js: accessibility helpers over a DOM tree

  A shallow embedding of [src/a11y.js] and the properties of its four
  public functions ([addIdToElement], [getA11yLabel], [createA11yButton],
  [setModalA11yAttributes]) and two private helpers ([getFirstHeadline],
  [replaceAriaLabelledByWithAriaLabel]).

  The host environment (the DOM) is modelled as far as the code uses it:
  elements with a tag name, an attribute map, keydown listeners and child
  nodes; text nodes; a document searched by [getElementById]. *)

From Stdlib Require Import Ascii.
From stdpp Require Import gmap strings list option.

Open Scope string_scope.

(** ** JavaScript values the code branches on *)

Module JS.

(** Truthiness of a value of type [string | null]: [null] and the empty
    string are falsy. *)
Definition truthy (v : option string) : bool :=
  match v with
  | Some s => negb (String.eqb s "")
  | None => false
  end.

(** Conversion to [DOMString] of an argument of type [string | null]:
    [null] becomes the four-character string ["null"]. *)
Definition ToString (v : option string) : string :=
  match v with
  | Some s => s
  | None => "null"
  end.

(** A [string] of this development is a sequence of code units below 256,
    each standing for the code point of the same number, U+0000 to U+00FF.
    [String.prototype.trim] removes white space and line terminators; the
    ones below U+0100 are TAB, LF, VT, FF, CR (9 to 13), SPACE (32) and
    NO-BREAK SPACE (160). *)
Definition isWhiteSpace (c : ascii) : bool :=
  let n := nat_of_ascii c in
  (Nat.leb 9 n && Nat.leb n 13) || Nat.eqb n 32 || Nat.eqb n 160.

Fixpoint trimStart (s : string) : string :=
  match s with
  | String c s' => if isWhiteSpace c then trimStart s' else s
  | EmptyString => EmptyString
  end.

(** [trimEnd] drops the white space a string ends with: a character is kept
    when it is not white space or when something is kept after it. *)
Fixpoint trimEnd (s : string) : string :=
  match s with
  | String c s' =>
      match trimEnd s' with
      | EmptyString => if isWhiteSpace c then EmptyString else String c EmptyString
      | rest => String c rest
      end
  | EmptyString => EmptyString
  end.

Definition trim (s : string) : string := trimEnd (trimStart s).

(** The value of a property that reads as a string or as an object; an
    object is truthy, a string is unless it is empty. *)
Inductive stringOrObject : Type :=
  | AString (s : string)
  | AnObject.

Definition truthyValue (v : stringOrObject) : bool :=
  match v with
  | AString s => negb (String.eqb s "")
  | AnObject => true
  end.

(** [String.prototype.toLowerCase] on the letters A to Z. *)
Definition lowerCase (c : ascii) : ascii :=
  let n := nat_of_ascii c in
  if Nat.leb 65 n && Nat.leb n 90 then ascii_of_nat (n + 32) else c.

Fixpoint toLowerCase (s : string) : string :=
  match s with
  | String c s' => String (lowerCase c) (toLowerCase s')
  | EmptyString => EmptyString
  end.

End JS.

(** ** The DOM tree *)

Module DOM.

(** A keydown listener. The only listener this module registers is the
    closure of a11y.js line 56, bound to the element it is registered on. *)
Inductive listener : Type :=
  | SimulateClick.

Inductive node' (E : Type) : Type :=
  | TextNode (data : string)
  | ElemNode (el : E).
Arguments TextNode {E} data.
Arguments ElemNode {E} el.

(** What the DOM fixes about an element when it creates it. [tag] is what
    the [tagName] property reads (upper case for an HTML element of an HTML
    document, the qualified name as it is otherwise) and [local] is the
    local name, which the type selectors of [querySelectorAll] match. The
    DOM relates the two through namespace, prefix and kind of document;
    the code depends on none of these, so both are kept as they read.
    [ownsControlNamedId] says that the element is a form with a control or
    image of its own whose [name] or [id] is ["id"]: the names of its
    controls are properties of a form and come before its own, so that the
    [id] property of such a form reads as the control. *)
Record names : Type := Names {
  tag : string;
  local : string;
  ownsControlNamedId : bool;
}.

(** An element: its [names], [attributes] by name, [hasClick] for
    [typeof element.click === "function"], the keydown [listeners] in
    registration order, and the child nodes in tree order. *)
#[warnings="-register-all"]
Inductive element : Type :=
  | Element (names : names) (attributes : gmap string string)
      (hasClick : bool) (listeners : list listener)
      (childNodes : list (node' element)).

Abbreviation node := (node' element).

Definition tagName (e : element) : string :=
  let 'Element n _ _ _ _ := e in tag n.
Definition localName (e : element) : string :=
  let 'Element n _ _ _ _ := e in local n.
Definition controlNamedId (e : element) : bool :=
  let 'Element n _ _ _ _ := e in ownsControlNamedId n.
Definition attributes (e : element) : gmap string string :=
  let 'Element _ a _ _ _ := e in a.
Definition hasClick (e : element) : bool :=
  let 'Element _ _ c _ _ := e in c.
Definition listeners (e : element) : list listener :=
  let 'Element _ _ _ l _ := e in l.
Definition childNodes (e : element) : list node :=
  let 'Element _ _ _ _ k := e in k.

(** *** Attributes *)

Definition getAttribute (name : string) (e : element) : option string :=
  attributes e !! name.

Definition setAttribute (name value : string) (e : element) : element :=
  let 'Element t a c l k := e in Element t (<[name := value]> a) c l k.

Definition removeAttribute (name : string) (e : element) : element :=
  let 'Element t a c l k := e in Element t (delete name a) c l k.

(** The [id] property reflects the [id] attribute, and reads as the empty
    string when the attribute is absent; on a form that has a control named
    ["id"] it reads as that control. *)
Definition id (e : element) : JS.stringOrObject :=
  if controlNamedId e then JS.AnObject
  else JS.AString (default "" (getAttribute "id" e)).

Definition addEventListener (h : listener) (e : element) : element :=
  let 'Element t a c l k := e in Element t a c (l ++ [h]) k.

(** *** Walking the child nodes

    The functions on trees below recurse through the list of child nodes;
    each is written with one of these list traversals, taking what to do
    at a child element as [rec]. *)

Section children.
Context {A : Type} (rec : nat → element → A).

(** The results of [rec] at the child elements, in order; [i] is the
    index of the first node of [ns]. *)
Fixpoint eachChild (i : nat) (ns : list node) : list A :=
  match ns with
  | [] => []
  | TextNode _ :: ns' => eachChild (S i) ns'
  | ElemNode c :: ns' => rec i c :: eachChild (S i) ns'
  end.
End children.

(** The child nodes with every child element replaced by [rec] of it. *)
Fixpoint mapChildren (rec : nat → element → element) (i : nat) (ns : list node)
  : list node :=
  match ns with
  | [] => []
  | TextNode d :: ns' => TextNode d :: mapChildren rec (S i) ns'
  | ElemNode c :: ns' => ElemNode (rec i c) :: mapChildren rec (S i) ns'
  end.

(** *** Text content *)

Fixpoint textOf (rec : element → string) (ns : list node) : string :=
  match ns with
  | [] => ""
  | TextNode d :: ns' => d +:+ textOf rec ns'
  | ElemNode c :: ns' => rec c +:+ textOf rec ns'
  end.

(** [el.textContent]: the data of the text nodes below [el], concatenated
    in tree order. *)
Fixpoint textContent (e : element) : string :=
  let 'Element _ _ _ _ kids := e in textOf textContent kids.

(** The children an element has after [el.textContent = s]: a single text
    node, or none when [s] is empty. *)
Definition textChildren (s : string) : list node :=
  if String.eqb s "" then [] else [TextNode s].

Definition setTextContent (s : string) (e : element) : element :=
  let 'Element t a c l _ := e in Element t a c l (textChildren s).

(** *** Positions in a tree *)

(** A path names a descendant by the indices to follow through
    [childNodes]; the empty path is the element itself. *)
Abbreviation path := (list nat).

Fixpoint nodeAt (p : path) (e : element) : option element :=
  match p with
  | [] => Some e
  | i :: p' =>
      match childNodes e !! i with
      | Some (ElemNode c) => nodeAt p' c
      | _ => None
      end
  end.

(** [updateAt p f e] applies [f] to the element at [p], and is [e] when
    [p] does not lead to an element. *)
Fixpoint updateAt (p : path) (f : element → element) (e : element) : element :=
  match p with
  | [] => f e
  | i :: p' =>
      match childNodes e !! i with
      | Some (ElemNode c) =>
          let 'Element t a h l k := e in
          Element t a h l (<[i := ElemNode (updateAt p' f c)]> k)
      | _ => e
      end
  end.

(** The descendant elements of [e] in tree order (pre-order), each with
    its path from [e]; [e] itself is not among them. *)
Fixpoint descendants (e : element) : list (path * element) :=
  let 'Element _ _ _ _ kids := e in
  mjoin (eachChild
           (λ i c, ([i], c) :: ((λ pc, (i :: pc.1, pc.2)) <$> descendants c))
           0 kids).

(** A list of named nodes in which no node comes after itself or after a
    node below it, as in tree order. *)
Fixpoint topDown {A : Type} (l : list (path * A)) : Prop :=
  match l with
  | [] => True
  | x :: l' => (∀ y, y ∈ l' → ¬ y.1 `prefix_of` x.1) ∧ topDown l'
  end.

(** [root.querySelectorAll(sel)]: the descendants matching [sel], in tree
    order. *)
Definition querySelectorAll (sel : element → bool) (root : element)
  : list (path * element) :=
  filter (λ pc, sel pc.2 = true) (descendants root).

Fixpoint firstOf (rec : element → option element) (ns : list node)
  : option element :=
  match ns with
  | [] => None
  | TextNode _ :: ns' => firstOf rec ns'
  | ElemNode c :: ns' =>
      match rec c with
      | Some r => Some r
      | None => firstOf rec ns'
      end
  end.

(** The first element in tree order, [e] included, whose [id] attribute
    is [i]. *)
Fixpoint findById (i : string) (e : element) : option element :=
  let 'Element _ a _ _ kids := e in
  if bool_decide (a !! "id" = Some i) then Some e
  else firstOf (findById i) kids.

(** [document.getElementById(i)]. An empty [id] attribute gives an element
    no ID, so the empty string finds nothing. *)
Definition getElementById (document : element) (i : string) : option element :=
  if String.eqb i "" then None else findById i document.

(** [el.cloneNode(true)]: a copy of the subtree; attributes are copied,
    event listeners are not. *)
Fixpoint cloneNode (e : element) : element :=
  let 'Element t a c _ kids := e in
  Element t a c [] (mapChildren (λ _, cloneNode) 0 kids).

(** The nesting depth of the elements below [e]. *)
Fixpoint height (e : element) : nat :=
  let 'Element _ _ _ _ kids := e in
  foldr Nat.max 0 (eachChild (λ _ c, S (height c)) 0 kids).

End DOM.

(** ** The objects a call works on *)

Module World.
Import DOM.

(** The element a function is given is an object the caller shares with
    the document when it is attached to it: it is then named by its path
    in the document, and a write to it is a write to the document. An
    element that is not in the document is a tree of its own. *)
Inductive handle : Type :=
  | Attached (p : path)
  | Detached (e : element).

Record world : Type := World {
  document : element;
  target : handle;
}.

(** The element the handle stands for, if it stands for one. A function
    is only ever called with an element: a handle that leads to none is
    there for the type, and the functions below leave its world alone. *)
Definition self (w : world) : option element :=
  match target w with
  | Attached p => nodeAt p (document w)
  | Detached e => Some e
  end.

(** A write to the element. *)
Definition modify (f : element → element) (w : world) : world :=
  match target w with
  | Attached p => World (updateAt p f (document w)) (Attached p)
  | Detached e => World (document w) (Detached (f e))
  end.

Definition getAttribute (name : string) (w : world) : option string :=
  self w ≫= DOM.getAttribute name.

Definition setAttribute (name value : string) : world → world :=
  modify (DOM.setAttribute name value).

Definition removeAttribute (name : string) : world → world :=
  modify (DOM.removeAttribute name).

Definition addEventListener (h : listener) : world → world :=
  modify (DOM.addEventListener h).

(** A write that keeps the [id] attribute and the child nodes of the
    element it is done on. *)
Definition keepsIdAndChildren (f : element → element) : Prop :=
  ∀ e, DOM.getAttribute "id" (f e) = DOM.getAttribute "id" e
       ∧ childNodes (f e) = childNodes e.

End World.

(** ** src/a11y.js *)

Module A11y.
Import JS DOM.

(** *** addIdToElement (a11y.js 9-15)

    [uuid] is the string [crypto.randomUUID()] returns in this call. *)
Definition addIdToElement (uuid : string) (w : World.world) : World.world :=
  match World.self w with
  | Some element =>
      if truthyValue (id element) then w
      else World.setAttribute "id" uuid w
  | None => w
  end.

(** *** getA11yLabel (a11y.js 21-38) *)

(** The selector ["[aria-label], [aria-labelledby]"]: the attribute is
    there, whatever its value. *)
Definition labelled (e : element) : bool :=
  bool_decide (is_Some (getAttribute "aria-label" e))
  || bool_decide (is_Some (getAttribute "aria-labelledby" e)).

(** The nodes of a clone are objects of their own, reached from the clone
    and from the node list [querySelectorAll] returned. A node of the
    clone is named by its path in the clone as [cloneNode] made it, and
    the writes [el.textContent = s] done so far are recorded by that name.
    [live σ p e] is what the node named [p], made as [e], is now: its
    children are the text it was assigned if it was assigned one, and its
    own children as they are now otherwise. *)
Fixpoint live (σ : gmap path string) (p : path) (e : element) : element :=
  let 'Element t a c l kids := e in
  match σ !! p with
  | Some s => Element t a c l (textChildren s)
  | None => Element t a c l (mapChildren (λ i, live σ (p ++ [i])) 0 kids)
  end.

(** [list.forEach(f)] for an [f] that may fail to return. *)
Fixpoint forEach {A S : Type} (f : A → S → option S) (l : list A) (s : S)
  : option S :=
  match l with
  | [] => Some s
  | x :: l' =>
      match f x s with
      | Some s' => forEach f l' s'
      | None => None
      end
  end.

(** The body of the function, with [getA11yLabel] standing for the
    function in its recursive call. [el.textContent = getA11yLabel(el)]
    reads the node [el] as it is now and records the write under its
    name. *)
Definition getA11yLabel_body (getA11yLabel : element → option string)
    (document : element) (element : element) : option string :=
  if truthy (getAttribute "aria-label" element) then
    getAttribute "aria-label" element
  else
    let labelledById := getAttribute "aria-labelledby" element in
    let labelledByElement := getElementById document (ToString labelledById) in
    match labelledByElement with
    | Some labelledByElement => Some (trim (textContent labelledByElement))
    | None =>
        let clonedElement := cloneNode element in
        σ ← forEach
              (λ '(p, el) σ,
                 label ← getA11yLabel (live σ p el); Some (<[p := label]> σ))
              (querySelectorAll labelled clonedElement) (∅ : gmap path string);
        Some (trim (textContent (live σ [] clonedElement)))
    end.

(** [fuel] bounds the depth of the recursion; the result is [None] when
    it runs out. *)
Fixpoint getA11yLabel (fuel : nat) (document : element) (element : element)
  : option string :=
  getA11yLabel_body
    (match fuel with
     | S fuel' => getA11yLabel fuel' document
     | O => λ _, None
     end)
    document element.

(** *** createA11yButton (a11y.js 47-74) *)

(** A keydown event as the handler reads it: [key] is [undefined] where
    the event has no key name, [keyCode] is the legacy key number. *)
Record keyEvent : Type := KeyEvent {
  key : option string;
  keyCode : option Z;
}.

(** The value of the handler's local [key]: a string, a number or
    [undefined]. *)
Inductive keyValue : Type :=
  | KString (s : string)
  | KNumber (n : Z)
  | KUndefined.

#[global] Instance keyValue_eq_dec : EqDecision keyValue.
Proof. solve_decision. Defined.

(** What running a handler does, in order. *)
Inductive effect : Type :=
  | PreventDefault
  | Click
  | DispatchEvent (type : string) (bubbles : bool).

#[global] Instance effect_eq_dec : EqDecision effect.
Proof. solve_decision. Defined.

(** The handler of a11y.js 56-73, registered on [element]. *)
Definition onKeydown (element : element) (e : keyEvent) : list effect :=
  let key :=
    match key e with
    | Some k => KString k
    | None => match keyCode e with Some n => KNumber n | None => KUndefined end
    end in
  if bool_decide (key = KString "Enter")
     || bool_decide (key = KNumber 13)
     || bool_decide (key ∈ [KString "Spacebar"; KString " "])
     || bool_decide (key = KNumber 32)
  then
    PreventDefault ::
    (if hasClick element then [Click]
     else [DispatchEvent "click" true])
  else [].

Definition runListener (element : element) (h : listener) (e : keyEvent)
  : list effect :=
  match h with
  | SimulateClick => onKeydown element e
  end.

(** A keydown event at the element runs its keydown listeners in the
    order they were registered. *)
Definition keydown (e : keyEvent) (w : World.world) : list effect :=
  match World.self w with
  | Some element => listeners element ≫= (λ h, runListener element h e)
  | None => []
  end.

(** [options] is [options.role], [None] when the caller gave none; the
    parameter default then makes it ["button"]. *)
Definition createA11yButton (options : option string) (w : World.world)
  : World.world :=
  let role := default "button" options in
  match World.self w with
  | Some element =>
      if String.eqb (tagName element) "BUTTON" then w
      else
        let w :=
          if negb (truthy (World.getAttribute "role" w))
          then World.setAttribute "role" role w else w in
        let w := World.setAttribute "tabindex" "0" w in
        World.addEventListener SimulateClick w
  | None => w
  end.

(** *** getFirstHeadline (a11y.js 107-119) *)

(** The selector ["h1, h2, h3, h4, h5, h6"]: a type selector matches an
    element by its local name, in every namespace. *)
Definition headline (e : element) : bool :=
  bool_decide (localName e ∈ ["h1"; "h2"; "h3"; "h4"; "h5"; "h6"]).

Definition getFirstHeadline (container : element) : option string :=
  let headlines := querySelectorAll headline container in
  let firstHeadlineWithText :=
    List.find (λ h, negb (String.eqb (trim (textContent h.2)) "")) headlines in
  match firstHeadlineWithText with
  | Some h => Some (trim (textContent h.2))
  | None => None
  end.

(** *** replaceAriaLabelledByWithAriaLabel (a11y.js 125-135) *)

Definition replaceAriaLabelledByWithAriaLabel (w : World.world) : World.world :=
  let labelledById := World.getAttribute "aria-labelledby" w in
  let labelledByElement :=
    getElementById (World.document w) (ToString labelledById) in
  match labelledByElement with
  | None => w
  | Some labelledByElement =>
      let w := World.setAttribute "aria-label"
                 (trim (textContent labelledByElement)) w in
      World.removeAttribute "aria-labelledby" w
  end.

(** *** setModalA11yAttributes (a11y.js 80-101) *)

Definition setModalA11yAttributes (w : World.world) : World.world :=
  let w :=
    if negb (truthy (World.getAttribute "role" w))
    then World.setAttribute "role" "dialog" w else w in
  let w := World.setAttribute "aria-modal" "true" w in
  let modalHeadline := World.self w ≫= getFirstHeadline in
  if truthy modalHeadline
     && negb (truthy (World.getAttribute "aria-label" w))
     && negb (truthy (World.getAttribute "aria-labelledby" w))
  then World.setAttribute "aria-label" (ToString modalHeadline) w
  else
    if truthy (World.getAttribute "aria-labelledby" w)
    then replaceAriaLabelledByWithAriaLabel w
    else w.

End A11y.

(** ** What the functions are expected to leave behind *)

Module Spec.
Import JS DOM.

(** The element after the first two writes of [setModalA11yAttributes]:
    the role made ["dialog"] where there was none, and [aria-modal]. *)
Definition withRoleAndModal (e : element) : element :=
  setAttribute "aria-modal" "true"
    (if negb (truthy (getAttribute "role" e))
     then setAttribute "role" "dialog" e else e).

(** A heading: an element whose local name is [h1], [h2], [h3], [h4], [h5]
    or [h6]. *)
Definition isHeading (e : element) : Prop :=
  localName e = "h1" ∨ localName e = "h2" ∨ localName e = "h3"
  ∨ localName e = "h4" ∨ localName e = "h5" ∨ localName e = "h6".

(** [text] is the trimmed text content of the first heading strictly below
    [container], in tree order, whose trimmed text content is not empty. *)
Definition firstHeadingText (container : element) (text : string) : Prop :=
  ∃ before p h after,
    descendants container = (before ++ (p, h) :: after)%list
    ∧ isHeading h ∧ text = trim (textContent h) ∧ text ≠ ""
    ∧ ∀ q h', (q, h') ∈ before → isHeading h' → trim (textContent h') = "".

(** No heading strictly below [container] has text other than white
    space. *)
Definition noHeadingText (container : element) : Prop :=
  ∀ p h, (p, h) ∈ descendants container → isHeading h →
    trim (textContent h) = "".

(** The first and the last code unit of a string. *)
Definition firstChar (s : string) : option ascii :=
  match s with
  | String c _ => Some c
  | EmptyString => None
  end.

Fixpoint lastChar (s : string) : option ascii :=
  match s with
  | String c EmptyString => Some c
  | String _ s' => lastChar s'
  | EmptyString => None
  end.

(** The label of [e], computed with the fuel that is always enough. *)
Definition labelOf (document e : element) : string :=
  default "" (A11y.getA11yLabel (height e) document e).

(** The subtree of [e] in which every element that carries [aria-label] or
    [aria-labelledby] has [label] of it as its text content. Nothing is
    left to replace below an element whose text content was replaced. *)
Fixpoint relabelled (label : element → string) (e : element) : element :=
  let 'Element t a c l kids := e in
  Element t a c l
    (mapChildren
       (λ _ k, if A11y.labelled k then setTextContent (label k) k
               else relabelled label k)
       0 kids).

(** The writes of text content recorded after a walk through the node list
    [l], each node given [label] of it. *)
Definition written (label : element → string) (l : list (path * element))
    (σ : gmap path string) : gmap path string :=
  foldl (λ σ pc, <[pc.1 := label pc.2]> σ) σ l.

(** The element [setModalA11yAttributes] leaves behind, where [text i] is
    the text content of the element [getElementById] finds for [i]. *)
Definition modalOutcome (text : string → option string) (e : element) : element :=
  let e2 := withRoleAndModal e in
  let labelledBy := getAttribute "aria-labelledby" e in
  if truthy labelledBy then
    match text (ToString labelledBy) with
    | Some t =>
        removeAttribute "aria-labelledby" (setAttribute "aria-label" (trim t) e2)
    | None => e2
    end
  else if truthy (getAttribute "aria-label" e) then e2
  else
    match A11y.getFirstHeadline e with
    | Some h => setAttribute "aria-label" h e2
    | None => e2
    end.

(** The text content of the element [getElementById] finds. *)
Definition textById (document : element) (i : string) : option string :=
  textContent <$> getElementById document i.

(** The element after one call of [createA11yButton] that did not stop
    at the native-button test. *)
Definition promoted (options : option string) (e : element) : element :=
  addEventListener SimulateClick
    (setAttribute "tabindex" "0"
       (if negb (truthy (getAttribute "role" e))
        then setAttribute "role" (default "button" options) e else e)).

(** The keys that activate: Enter or Space by key name, or by the legacy
    key code where the event has no key name. *)
Definition activatingKey (e : A11y.keyEvent) : Prop :=
  A11y.key e = Some "Enter" ∨ A11y.key e = Some " "
  ∨ A11y.key e = Some "Spacebar"
  ∨ (A11y.key e = None
     ∧ (A11y.keyCode e = Some 13%Z ∨ A11y.keyCode e = Some 32%Z)).

(** The activation of an element: its own [click] method where it has
    one, a bubbling synthetic click event otherwise. *)
Definition activation (e : element) : A11y.effect :=
  if hasClick e then A11y.Click else A11y.DispatchEvent "click" true.

(** The number of activations among the effects of a key press. *)
Definition activations (l : list A11y.effect) : nat :=
  length (filter (λ x, x ≠ A11y.PreventDefault) l).

End Spec.

(** ** Sample pages *)

Module Examples.
Import DOM World.

(** U+00A0 NO-BREAK SPACE, as [&nbsp;] gives it. *)
Definition nbsp : string := String (ascii_of_nat 160) EmptyString.

(** An HTML element of an HTML document, with the given attributes and
    child nodes: its tag name is its local name in upper case. *)
Definition html (tag : string) (attrs : list (string * string))
    (kids : list node) : element :=
  Element (Names tag (JS.toLowerCase tag) false) (list_to_map attrs) true []
    kids.

(** An element of another namespace: its tag name is its local name as it
    is written, and it has no [click] method. *)
Definition foreign (tag : string) (attrs : list (string * string))
    (kids : list node) : element :=
  Element (Names tag tag false) (list_to_map attrs) false [] kids.

Definition title : element :=
  html "P" [("id", "title")] [TextNode "  Account settings  "].

Definition heading : element :=
  html "H2" [] [TextNode " Preferences "].

(** A modal with an explicit label, a reference to [title] and a
    heading. *)
Definition modal : element :=
  html "DIV" [("aria-label", "Close"); ("aria-labelledby", "title")]
    [ElemNode heading; TextNode "Body"].

(** A modal with a reference to [title] and a heading, but no
    [aria-label]. *)
Definition modalByReference : element :=
  html "DIV" [("aria-labelledby", "title")]
    [ElemNode heading; TextNode "Body"].

Definition page : element :=
  html "BODY" [] [ElemNode title; ElemNode modal; ElemNode modalByReference].

Definition modalInPage : world := World page (Attached [1]).
Definition modalByReferenceInPage : world := World page (Attached [2]).

(** [<div><h2>Settings</h2></div>], not in the document. *)
Definition settingsModal : world :=
  World page
    (Detached (html "DIV" [] [ElemNode (html "H2" [] [TextNode "Settings"])])).

(** A page in which an element happens to have the id ["null"]. *)
Definition greeting : element := html "DIV" [] [TextNode "Hello"].

Definition pageWithNullId : element :=
  html "BODY" []
    [ElemNode (html "P" [("id", "null")] [TextNode "X"]); ElemNode greeting].

(** [<div>Hello <span aria-label="World">ignored</span></div>] *)
Definition helloWorld : element :=
  html "DIV" []
    [TextNode "Hello ";
     ElemNode (html "SPAN" [("aria-label", "World")] [TextNode "ignored"])].

(** Two elements that refer to each other, and an element referred to by
    one of its own descendants. *)
Definition first : element :=
  html "DIV" [("id", "a"); ("aria-labelledby", "b")] [TextNode "A"].

Definition second : element :=
  html "DIV" [("id", "b"); ("aria-labelledby", "a")] [TextNode "B"].

Definition outer : element :=
  html "DIV" [("id", "outer")]
    [TextNode "Out ";
     ElemNode (html "SPAN" [("aria-labelledby", "outer")] [TextNode "in"])].

Definition pageWithCycles : element :=
  html "BODY" [] [ElemNode first; ElemNode second; ElemNode outer].

(** [<div aria-labelledby="x">] beside [<p id="x">  Hello  </p>]. *)
Definition byX : element := html "DIV" [("aria-labelledby", "x")] [].

Definition pageWithX : element :=
  html "BODY" []
    [ElemNode (html "P" [("id", "x")] [TextNode "  Hello  "]); ElemNode byX].

(** [<div>Hello <b>there</b> </div>]: no label attribute anywhere. *)
Definition helloThere : element :=
  html "DIV" []
    [TextNode "Hello "; ElemNode (html "B" [] [TextNode "there"]); TextNode " "].

(** A modal whose reference leads to an element without text, and which
    has a heading. *)
Definition pageWithBlank : element :=
  html "BODY" []
    [ElemNode (html "P" [("id", "blank")] [TextNode (" " +:+ nbsp +:+ " ")]);
     ElemNode (html "DIV" [("aria-labelledby", "blank")] [ElemNode heading])].

Definition modalByBlank : world := World pageWithBlank (Attached [1]).

(** [<form><input name="id"></form>], not in the document: a form without
    an [id] attribute that has a control named ["id"]. *)
Definition formWithControl : world :=
  World page
    (Detached
       (Element (Names "FORM" "form" true) ∅ true []
          [ElemNode (html "INPUT" [("name", "id")] [])])).

(** [<p id="padded">&nbsp; Hello&nbsp;</p>], and an element that refers
    to it. *)
Definition padded : element :=
  html "P" [("id", "padded")] [TextNode (nbsp +:+ " Hello" +:+ nbsp)].

Definition byPadded : element := html "DIV" [("aria-labelledby", "padded")] [].

(** [<div><h2>&nbsp;</h2><svg:h3>Title&nbsp;</svg:h3><h2>Late</h2></div>]: the
    first heading has only white space as text, the second is a heading by
    its local name only. *)
Definition titled : element :=
  html "DIV" []
    [ElemNode (html "H2" [] [TextNode nbsp]);
     ElemNode (foreign "h3" [] [TextNode ("Title" +:+ nbsp)]);
     ElemNode (html "H2" [] [TextNode "Late"])].

Definition pageWithNbsp : element :=
  html "BODY" [] [ElemNode padded; ElemNode byPadded; ElemNode titled].

Definition byPaddedInPage : world := World pageWithNbsp (Attached [1]).
Definition titledInPage : world := World pageWithNbsp (Attached [2]).

(** A page in which the element with the id ["null"] has padded text. *)
Definition pageWithPaddedNull : element :=
  html "BODY" []
    [ElemNode (html "P" [("id", "null")] [TextNode (nbsp +:+ "Nothing ")])].

(** [<div>&nbsp;Hello <span aria-label="World">ignored</span>&nbsp;</div>] *)
Definition paddedHelloWorld : element :=
  html "DIV" []
    [TextNode (nbsp +:+ "Hello ");
     ElemNode (html "SPAN" [("aria-label", "World")] [TextNode "ignored"]);
     TextNode nbsp].

(** [<div>&nbsp;Hi <b>there</b>&nbsp;</div>] *)
Definition paddedHi : element :=
  html "DIV" []
    [TextNode (nbsp +:+ "Hi ");
     ElemNode (html "B" [] [TextNode "there"]);
     TextNode nbsp].

(** [<div role="">Save</div>], not in the document. *)
Definition emptyRole : world :=
  World page (Detached (html "DIV" [("role", "")] [TextNode "Save"])).

(** [<div>Save</div>], not in the document. *)
Definition plainDiv : world :=
  World page (Detached (html "DIV" [] [TextNode "Save"])).

(** [<svg:g>Save</svg:g>], not in the document: no [click] method. *)
Definition svgGroup : world :=
  World page (Detached (foreign "g" [] [TextNode "Save"])).

Definition enter : A11y.keyEvent := A11y.KeyEvent (Some "Enter") (Some 13%Z).
Definition space : A11y.keyEvent := A11y.KeyEvent (Some " ") (Some 32%Z).
Definition legacySpace : A11y.keyEvent := A11y.KeyEvent None (Some 32%Z).
Definition letterA : A11y.keyEvent := A11y.KeyEvent (Some "a") (Some 65%Z).

(** [<div role="link">Save</div>], not in the document. *)
Definition linkDiv : world :=
  World page (Detached (html "DIV" [("role", "link")] [TextNode "Save"])).

End Examples.

(** * Properties *)

(** ** Facts about the JavaScript values *)

Module JSFacts.
Import JS.

Lemma truthy_Some (v : option string) :
  truthy v = true ↔ ∃ s, v = Some s ∧ s ≠ "".
Proof.
  destruct v as [s|]; simpl.
  - rewrite negb_true_iff. split.
    + intros H%String.eqb_neq. by exists s.
    + intros (s' & [= <-] & Hne). by apply String.eqb_neq.
  - split; [done|]. by intros (s & ? & _).
Qed.

Lemma truthy_false (v : option string) :
  truthy v = false ↔ v = None ∨ v = Some "".
Proof.
  destruct v as [s|]; simpl.
  - rewrite negb_false_iff, String.eqb_eq. split.
    + intros ->. by right.
    + by intros [?|[= ->]].
  - split; [by left | done].
Qed.

(** The white space of [trim], code unit by code unit. *)
Lemma isWhiteSpace_spec (c : ascii) :
  isWhiteSpace c = true
  ↔ nat_of_ascii c ∈ [9; 10; 11; 12; 13; 32; 160]%nat.
Proof.
  unfold isWhiteSpace. generalize (nat_of_ascii c). intros n.
  rewrite !orb_true_iff, andb_true_iff, !Nat.leb_le, !Nat.eqb_eq.
  rewrite !elem_of_cons, elem_of_nil. lia.
Qed.

Example trim_nbsp :
  trim (Examples.nbsp +:+ " Hello world" +:+ Examples.nbsp +:+ " ")
  = "Hello world".
Proof. reflexivity. Qed.

End JSFacts.

(** ** Facts about the DOM tree *)

Module DOMFacts.
Import DOM.
#[local] Open Scope nat_scope.

(** Induction on an element, with the property at hand for each of its
    child elements. *)
Lemma element_rect' (P : element → Type) :
  (∀ t a c l kids,
     (∀ i k, kids !! i = Some (ElemNode k) → P k) →
     P (Element t a c l kids)) →
  ∀ e, P e.
Proof.
  intros step. fix IH 1. intros [t a c l kids]. apply step.
  induction kids as [|n kids IHkids]; intros i k Hk.
  - exfalso. by rewrite lookup_nil in Hk.
  - destruct i as [|i]; simpl in Hk.
    + destruct n as [d|k']; [exfalso; congruence|].
      assert (k' = k) as <- by congruence. apply IH.
    + exact (IHkids i k Hk).
Defined.

Lemma element_ind' (P : element → Prop) :
  (∀ t a c l kids,
     (∀ i k, kids !! i = Some (ElemNode k) → P k) →
     P (Element t a c l kids)) →
  ∀ e, P e.
Proof. apply element_rect'. Qed.

(** *** Attributes *)

Lemma getAttribute_setAttribute_eq name value e :
  getAttribute name (setAttribute name value e) = Some value.
Proof. destruct e. apply lookup_insert_eq. Qed.

Lemma getAttribute_setAttribute_ne name name' value e :
  name ≠ name' →
  getAttribute name' (setAttribute name value e) = getAttribute name' e.
Proof. destruct e. apply lookup_insert_ne. Qed.

Lemma getAttribute_removeAttribute_eq name e :
  getAttribute name (removeAttribute name e) = None.
Proof. destruct e. apply lookup_delete_eq. Qed.

Lemma getAttribute_removeAttribute_ne name name' e :
  name ≠ name' →
  getAttribute name' (removeAttribute name e) = getAttribute name' e.
Proof. destruct e. apply lookup_delete_ne. Qed.

Lemma childNodes_setAttribute name value e :
  childNodes (setAttribute name value e) = childNodes e.
Proof. by destruct e. Qed.

Lemma childNodes_removeAttribute name e :
  childNodes (removeAttribute name e) = childNodes e.
Proof. by destruct e. Qed.

(** *** The child traversals *)

Lemma elem_of_eachChild {A} (rec : nat → element → A) i ns x :
  x ∈ eachChild rec i ns ↔
  ∃ j c, ns !! j = Some (ElemNode c) ∧ x = rec (i + j) c.
Proof.
  revert i. induction ns as [|[d|k] ns IH]; intros i; simpl.
  - rewrite elem_of_nil. split; [done|]. intros (j & c & Hj & _).
    by rewrite lookup_nil in Hj.
  - rewrite IH. split.
    + intros (j & c & Hj & ->). exists (S j), c. split; [done|].
      f_equal. lia.
    + intros ([|j] & c & Hj & ->); simpl in Hj; [done|].
      exists j, c. split; [done|]. f_equal. lia.
  - rewrite elem_of_cons, IH. split.
    + intros [->|(j & c & Hj & ->)].
      * exists 0, k. split; [done|]. f_equal. lia.
      * exists (S j), c. split; [done|]. f_equal. lia.
    + intros ([|j] & c & Hj & ->); simpl in Hj.
      * left. injection Hj as ->. f_equal. lia.
      * right. exists j, c. split; [done|]. f_equal. lia.
Qed.

Lemma eachChild_ext {A} (f g : nat → element → A) i ns :
  (∀ j c, ns !! j = Some (ElemNode c) → f (i + j) c = g (i + j) c) →
  eachChild f i ns = eachChild g i ns.
Proof.
  revert i. induction ns as [|[d|k] ns IH]; intros i Hfg; simpl; [done|..].
  - apply IH. intros j c Hj. replace (S i + j) with (i + S j) by lia.
    by apply Hfg.
  - f_equal.
    + specialize (Hfg 0 k eq_refl). by rewrite Nat.add_0_r in Hfg.
    + apply IH. intros j c Hj. replace (S i + j) with (i + S j) by lia.
      by apply Hfg.
Qed.

Lemma mapChildren_ext (f g : nat → element → element) i ns :
  (∀ j c, ns !! j = Some (ElemNode c) → f (i + j) c = g (i + j) c) →
  mapChildren f i ns = mapChildren g i ns.
Proof.
  revert i. induction ns as [|[d|k] ns IH]; intros i Hfg; simpl; [done|..].
  - f_equal. apply IH. intros j c Hj.
    replace (S i + j) with (i + S j) by lia. by apply Hfg.
  - f_equal.
    + specialize (Hfg 0 k eq_refl). rewrite Nat.add_0_r in Hfg. by f_equal.
    + apply IH. intros j c Hj. replace (S i + j) with (i + S j) by lia.
      by apply Hfg.
Qed.

Lemma eachChild_mapChildren {A} (rec : nat → element → A) f i ns :
  eachChild rec i (mapChildren f i ns) = eachChild (λ j c, rec j (f j c)) i ns.
Proof.
  revert i. induction ns as [|[d|k] ns IH]; intros i; simpl; [done|..].
  - apply IH.
  - f_equal. apply IH.
Qed.

Lemma eachChild_textChildren {A} (rec : nat → element → A) i s :
  eachChild rec i (textChildren s) = [].
Proof. unfold textChildren. by destruct (String.eqb s ""). Qed.

(** *** Height *)

Lemma le_foldr_max (l : list nat) (n : nat) : n ∈ l → n ≤ foldr Nat.max 0 l.
Proof.
  induction l as [|m l IH]; simpl.
  - by intros ?%elem_of_nil.
  - intros [->|Hn%IH]%elem_of_cons; lia.
Qed.

Lemma foldr_max_le (l : list nat) (b : nat) :
  (∀ n : nat, n ∈ l → n ≤ b) → foldr Nat.max 0 l ≤ b.
Proof.
  induction l as [|m l IH]; simpl; intros Hb; [lia|].
  apply Nat.max_lub.
  - apply Hb. by left.
  - apply IH. intros n Hn. apply Hb. by right.
Qed.

Lemma height_child t a c l kids i k :
  kids !! i = Some (ElemNode k) → height k < height (Element t a c l kids).
Proof.
  intros Hk. simpl. apply Nat.lt_succ_r, le_n_S.
  apply (le_foldr_max _ (S (height k))), elem_of_eachChild.
  by exists i, k.
Qed.

Lemma descendants_height e p c :
  (p, c) ∈ descendants e → height c < height e.
Proof.
  revert p c. induction e as [t a h l kids IH] using element_ind'.
  intros p c. simpl. rewrite list_elem_of_join.
  intros (ds & Hpc & (j & k & Hk & ->)%elem_of_eachChild).
  apply elem_of_cons in Hpc as [[= -> ->]|Hpc].
  - exact (height_child t a h l kids j _ Hk).
  - apply list_elem_of_fmap in Hpc as ([p' c'] & [= -> ->] & Hpc). simpl.
    pose proof (IH j k Hk p' c' Hpc).
    pose proof (height_child t a h l kids j k Hk). simpl in *. lia.
Qed.

Lemma mapChildren_id (f : nat → element → element) i ns :
  (∀ j c, ns !! j = Some (ElemNode c) → f (i + j) c = c) →
  mapChildren f i ns = ns.
Proof.
  revert i. induction ns as [|[d|k] ns IH]; intros i Hf; simpl; [done|..].
  - f_equal. apply IH. intros j c Hj.
    replace (S i + j) with (i + S j) by lia. by apply Hf.
  - f_equal.
    + specialize (Hf 0 k eq_refl). rewrite Nat.add_0_r in Hf. by f_equal.
    + apply IH. intros j c Hj. replace (S i + j) with (i + S j) by lia.
      by apply Hf.
Qed.

(** *** Tree order *)

Lemma elem_of_descendants t a h l kids q c :
  (q, c) ∈ descendants (Element t a h l kids) ↔
  ∃ j k, kids !! j = Some (ElemNode k)
         ∧ ((q = [j] ∧ c = k) ∨ ∃ q', q = j :: q' ∧ (q', c) ∈ descendants k).
Proof.
  simpl. rewrite list_elem_of_join. split.
  - intros (ds & Hqc & (j & k & Hk & ->)%elem_of_eachChild).
    exists j, k. split; [done|].
    apply elem_of_cons in Hqc as [[= -> ->]|Hqc]; [by left|right].
    apply list_elem_of_fmap in Hqc as ([q' c'] & [= -> ->] & Hqc).
    by exists q'.
  - intros (j & k & Hk & Hqc). eexists. split.
    2: { apply elem_of_eachChild. by exists j, k. }
    simpl. destruct Hqc as [[-> ->]|(q' & -> & Hqc)]; [by left|right].
    apply list_elem_of_fmap. by exists (q', c).
Qed.

Lemma descendants_nonempty e c : ([], c) ∉ descendants e.
Proof.
  destruct e as [t a h l kids].
  by intros (j & k & _ & [[? _]|(q' & ? & _)])%elem_of_descendants.
Qed.

Lemma topDown_app {A} (l1 l2 : list (path * A)) :
  topDown (l1 ++ l2) ↔
  topDown l1 ∧ topDown l2
  ∧ ∀ x y, x ∈ l1 → y ∈ l2 → ¬ y.1 `prefix_of` x.1.
Proof.
  induction l1 as [|x l1 IH]; simpl.
  - split; [|by intros (_ & ? & _)].
    intros H. split_and!; [done..|]. by intros ?? ?%elem_of_nil.
  - rewrite IH. split.
    + intros (Hx & H1 & H2 & H12). split_and!; try done.
      * intros y Hy. apply Hx, elem_of_app. by left.
      * intros x' y [->|Hx']%elem_of_cons Hy.
        -- apply Hx, elem_of_app. by right.
        -- by apply H12.
    + intros ((Hx & H1) & H2 & H12). split_and!; try done.
      * intros y [Hy|Hy]%elem_of_app; [by apply Hx|].
        apply H12; [by left|done].
      * intros x' y Hx' Hy. apply H12; [by right|done].
Qed.

Lemma topDown_fmap_cons {A} i (l : list (path * A)) :
  topDown l → topDown ((λ pc, (i :: pc.1, pc.2)) <$> l).
Proof.
  induction l as [|x l IH]; simpl; [done|].
  intros [Hx Hl]. split; [|by apply IH].
  intros y (y' & -> & Hy')%list_elem_of_fmap. simpl.
  intros Hpre%prefix_cons_inv_2. by eapply Hx.
Qed.

Lemma topDown_filter {A} (P : path * A → Prop) `{!∀ x, Decision (P x)}
    (l : list (path * A)) :
  topDown l → topDown (filter P l).
Proof.
  induction l as [|x l IH]; simpl; [done|].
  intros [Hx Hl]. rewrite filter_cons. destruct (decide (P x)); [|by apply IH].
  split; [|by apply IH].
  intros y [_ Hy]%list_elem_of_filter. by apply Hx.
Qed.

Lemma NoDup_fst_agree {A B} (l : list (A * B)) x y1 y2 :
  NoDup l.*1 → (x, y1) ∈ l → (x, y2) ∈ l → y1 = y2.
Proof.
  induction l as [|[x' y'] l IH]; simpl.
  - by intros _ ?%elem_of_nil.
  - intros [Hx Hl]%list.NoDup_cons H1 H2.
    apply elem_of_cons in H1 as [H1|H1]; apply elem_of_cons in H2 as [H2|H2].
    + congruence.
    + injection H1 as -> ->. destruct Hx.
      apply list_elem_of_fmap. by exists (x', y2).
    + injection H2 as -> ->. destruct Hx.
      apply list_elem_of_fmap. by exists (x', y1).
    + by apply IH.
Qed.

Lemma topDown_NoDup {A} (l : list (path * A)) : topDown l → NoDup l.*1.
Proof.
  induction l as [|x l IH]; simpl; [constructor|].
  intros [Hx Hl]. constructor; [|by apply IH].
  intros (y & Hxy & Hy)%list_elem_of_fmap. apply (Hx y Hy). by rewrite Hxy.
Qed.

(** The descendants of the child nodes [ns], whose first node has index
    [i]: in tree order, and every path starting with an index from [i]
    on. *)
Lemma topDown_eachChild (ns : list node) i :
  (∀ j c, ns !! j = Some (ElemNode c) → topDown (descendants c)) →
  let l := mjoin (eachChild
                    (λ i c, ([i], c) :: ((λ pc, (i :: pc.1, pc.2)) <$> descendants c))
                    i ns) in
  topDown l ∧ ∀ y, y ∈ l → ∃ j q, y.1 = j :: q ∧ i ≤ j.
Proof.
  revert i. induction ns as [|[d|k] ns IH]; intros i Hns; simpl.
  - split; [done|]. by intros ? ?%elem_of_nil.
  - destruct (IH (S i)) as [Htop Hfrom].
    { intros j c Hj. by apply (Hns (S j)). }
    split; [done|]. intros y (j & q & ? & ?)%Hfrom. exists j, q. split; [done|lia].
  - destruct (IH (S i)) as [Htop Hfrom].
    { intros j c Hj. by apply (Hns (S j)). }
    split.
    + split.
      * intros y [(y' & -> & Hy')%list_elem_of_fmap|Hy]%elem_of_app; simpl.
        -- intros Hpre%prefix_cons_inv_2%prefix_nil_inv.
           destruct y' as [q c]. simpl in Hpre. subst q.
           by apply descendants_nonempty in Hy'.
        -- apply Hfrom in Hy as (j & q & -> & Hj).
           intros ?%prefix_cons_inv_1. lia.
      * apply topDown_app. split_and!; [|done|].
        -- apply topDown_fmap_cons, (Hns 0 k eq_refl).
        -- intros x y (x' & -> & _)%list_elem_of_fmap Hy. simpl.
           apply Hfrom in Hy as (j & q & -> & Hj).
           intros ?%prefix_cons_inv_1. lia.
    + intros y [->|[(y' & -> & _)%list_elem_of_fmap|Hy]%elem_of_app]%elem_of_cons.
      * by exists i, [].
      * by exists i, y'.1.
      * apply Hfrom in Hy as (j & q & ? & ?). exists j, q. split; [done|lia].
Qed.

Lemma topDown_descendants e : topDown (descendants e).
Proof.
  induction e as [t a h l kids IH] using element_ind'.
  by apply (topDown_eachChild kids 0).
Qed.

Lemma topDown_querySelectorAll sel e : topDown (querySelectorAll sel e).
Proof. apply topDown_filter, topDown_descendants. Qed.

Lemma querySelectorAll_height sel e p c :
  (p, c) ∈ querySelectorAll sel e → height c < height e.
Proof.
  unfold querySelectorAll. rewrite list_elem_of_filter.
  intros [_ ?]. by eapply descendants_height.
Qed.

Lemma height_cloneNode e : height (cloneNode e) = height e.
Proof.
  induction e as [t a h l kids IH] using element_ind'. simpl. f_equal.
  rewrite eachChild_mapChildren. apply eachChild_ext.
  intros j c Hj. f_equal. by eapply IH.
Qed.

End DOMFacts.

(** ** getA11yLabel *)

Module Label.
Import JS DOM DOMFacts A11y Spec.
#[local] Open Scope nat_scope.
#[local] Open Scope list_scope.

(** A write of text content to a node of the clone never makes it
    deeper. *)
Lemma height_live σ p e : height (live σ p e) ≤ height e.
Proof.
  revert p. induction e as [t a h l kids IH] using element_ind'.
  intros p. simpl. destruct (σ !! p) as [s|]; simpl.
  - rewrite eachChild_textChildren. simpl. lia.
  - rewrite eachChild_mapChildren. apply foldr_max_le.
    intros n (j & c & Hc & ->)%elem_of_eachChild.
    etrans; [apply le_n_S, (IH j c Hc)|].
    apply (le_foldr_max _ (S (height c))), elem_of_eachChild.
    by exists j, c.
Qed.

Lemma forEach_is_Some {A S} (f : A → S → option S) (l : list A) (s : S) :
  (∀ x s', x ∈ l → is_Some (f x s')) → is_Some (forEach f l s).
Proof.
  revert s. induction l as [|x l IH]; intros s Hf; simpl; [by eexists|].
  destruct (Hf x s) as [s' ->]; [by left|].
  apply IH. intros y s'' Hy. apply Hf. by right.
Qed.

Lemma forEach_mono {A S} (f g : A → S → option S) (l : list A) (s r : S) :
  (∀ x s' r', x ∈ l → f x s' = Some r' → g x s' = Some r') →
  forEach f l s = Some r → forEach g l s = Some r.
Proof.
  revert s. induction l as [|x l IH]; intros s Hfg; simpl; [done|].
  destruct (f x s) as [s'|] eqn:Hfx; [|done].
  rewrite (Hfg x s s'); [|by left|done].
  apply IH. intros y s'' r' Hy. apply Hfg. by right.
Qed.

Lemma getA11yLabel_body_is_Some (self : element → option string) document element :
  (∀ e, height e < height element → is_Some (self e)) →
  is_Some (getA11yLabel_body self document element).
Proof.
  intros Hself. unfold getA11yLabel_body.
  destruct (truthy (getAttribute "aria-label" element)) eqn:Hlabel.
  { by apply JSFacts.truthy_Some in Hlabel as (s & -> & _). }
  destruct (getElementById _ _); [by eexists|]. simpl.
  match goal with
  | |- is_Some (forEach ?f ?l ?s ≫= _) =>
      destruct (forEach_is_Some f l s) as [σ ->]; [|by eexists]
  end.
  intros [p c] σ Hc%querySelectorAll_height.
  rewrite height_cloneNode in Hc.
  destruct (Hself (live σ p c)) as [label ->]; [|by eexists].
  pose proof (height_live σ p c). lia.
Qed.

Lemma getA11yLabel_body_mono (f g : element → option string) document element label :
  (∀ e l, f e = Some l → g e = Some l) →
  getA11yLabel_body f document element = Some label →
  getA11yLabel_body g document element = Some label.
Proof.
  intros Hfg. unfold getA11yLabel_body.
  destruct (truthy (getAttribute "aria-label" element)); [done|].
  destruct (getElementById _ _); [done|]. simpl.
  match goal with
  | |- forEach ?f ?l ?s ≫= _ = _ → _ =>
      destruct (forEach f l s) as [σ|] eqn:Hσ; [|done]
  end.
  simpl. intros <-.
  match goal with
  | |- forEach ?g _ _ ≫= _ = _ =>
      erewrite (forEach_mono _ g); [done| |exact Hσ]
  end.
  intros [p c] σ' r' _.
  destruct (f (live σ' p c)) as [l|] eqn:Hl; [|done].
  by rewrite (Hfg _ _ Hl).
Qed.

(** The recursion is at most as deep as the element tree: fuel that covers
    the height of the element is never used up. *)
Lemma getA11yLabel_is_Some document fuel element :
  height element ≤ fuel → is_Some (getA11yLabel fuel document element).
Proof.
  revert element. induction fuel as [|fuel IH]; intros element Hfuel.
  all: apply getA11yLabel_body_is_Some; intros e He.
  - lia.
  - apply IH. lia.
Qed.

(** More fuel does not change a result. *)
Lemma getA11yLabel_S document fuel element label :
  getA11yLabel fuel document element = Some label →
  getA11yLabel (S fuel) document element = Some label.
Proof.
  revert element label.
  induction fuel as [|fuel IH]; intros element label.
  - by apply getA11yLabel_body_mono.
  - apply getA11yLabel_body_mono, IH.
Qed.

Lemma getA11yLabel_le document fuel fuel' element label :
  fuel ≤ fuel' →
  getA11yLabel fuel document element = Some label →
  getA11yLabel fuel' document element = Some label.
Proof.
  induction 1 as [|fuel' _ IH]; [done|].
  intros H. by apply getA11yLabel_S, IH.
Qed.

(** *** The writes to the clone *)

(** A node of the clone is as it was made as long as no write was done to
    it or below it. *)
Lemma live_id σ p e : (∀ r, σ !! (p ++ r) = None) → live σ p e = e.
Proof.
  revert p. induction e as [t a h l kids IH] using element_ind'.
  intros p Hσ. simpl.
  pose proof (Hσ []) as Hp. rewrite app_nil_r in Hp. rewrite Hp.
  f_equal. apply mapChildren_id. intros j c Hc. apply (IH j c Hc).
  intros r. rewrite <-app_assoc. apply Hσ.
Qed.

(** The clone after a write to each of its labelled descendants. *)
Lemma live_relabelled (label : element → string) σ p e :
  σ !! p = None →
  (∀ q c, (q, c) ∈ descendants e →
     σ !! (p ++ q) = if labelled c then Some (label c) else None) →
  live σ p e = Spec.relabelled label e.
Proof.
  revert p. induction e as [t a h l kids IH] using element_ind'.
  intros p Hp Hσ. simpl. rewrite Hp. f_equal.
  apply mapChildren_ext. intros j c Hc. simpl.
  assert (([j], c) ∈ descendants (Element t a h l kids)) as Hjc.
  { apply elem_of_descendants. exists j, c. split; [done|]. by left. }
  pose proof (Hσ _ _ Hjc) as Hj.
  destruct (labelled c).
  - destruct c. simpl. by rewrite Hj.
  - apply (IH j c Hc); [done|].
    intros q c' Hq. rewrite <-app_assoc. apply Hσ.
    apply elem_of_descendants. exists j, c. split; [done|]. right. by exists q.
Qed.

Lemma written_not_in label l σ q :
  q ∉ l.*1 → written label l σ !! q = σ !! q.
Proof.
  revert σ. induction l as [|[p c] l IH]; intros σ; simpl; [done|].
  intros [Hqp Hq]%not_elem_of_cons. rewrite IH by done.
  by apply lookup_insert_ne.
Qed.

Lemma written_in label l σ q c :
  NoDup l.*1 → (q, c) ∈ l → written label l σ !! q = Some (label c).
Proof.
  revert σ. induction l as [|[p c'] l IH]; intros σ; simpl.
  - by intros _ ?%elem_of_nil.
  - intros [Hp Hl]%list.NoDup_cons [[= -> ->]|Hq]%elem_of_cons.
    + rewrite written_not_in by done. apply lookup_insert_eq.
    + by apply IH.
Qed.

(** In tree order every node is read before anything was written to it or
    below it, so that each write is the label of the node as it was
    made. *)
Lemma forEach_written (self : element → option string) (label : element → string)
    (l : list (path * element)) (σ : gmap path string) :
  topDown l →
  (∀ q pc, is_Some (σ !! q) → pc ∈ l → ¬ pc.1 `prefix_of` q) →
  (∀ pc, pc ∈ l → self pc.2 = Some (label pc.2)) →
  forEach (λ '(p, el) σ, label ← self (live σ p el); Some (<[p := label]> σ)) l σ
  = Some (written label l σ).
Proof.
  revert σ. induction l as [|[p c] l IH]; intros σ; simpl; [done|].
  intros [Hpc Hl] Hσ Hself.
  rewrite live_id.
  2: { intros r. apply eq_None_not_Some. intros Hr.
       apply (Hσ _ (p, c) Hr); [by left|]. by apply prefix_app_r. }
  pose proof (Hself (p, c) ltac:(by left)) as Hc. simpl in Hc.
  rewrite Hc. simpl.
  apply IH; [done| |].
  - intros q pc Hq Hin.
    destruct (decide (p = q)) as [<-|Hne].
    + by apply Hpc.
    + rewrite lookup_insert_ne in Hq by done. apply Hσ; [done|by right].
  - intros pc Hin. apply Hself. by right.
Qed.

Lemma getA11yLabel_labelOf document fuel e :
  height e ≤ fuel → getA11yLabel fuel document e = Some (Spec.labelOf document e).
Proof.
  intros Hfuel. unfold Spec.labelOf.
  destruct (getA11yLabel_is_Some document (height e) e) as [label Hlabel]; [done|].
  rewrite Hlabel. simpl. by apply (getA11yLabel_le _ (height e)).
Qed.

(** The third branch of [getA11yLabel]: an element without a non-empty
    [aria-label], for which [getElementById] finds nothing, has as its label
    the trimmed text content of its clone with every labelled descendant's
    text content replaced by the label of that descendant. *)
Lemma getA11yLabel_relabelled document fuel element :
  truthy (getAttribute "aria-label" element) = false →
  getElementById document (ToString (getAttribute "aria-labelledby" element))
  = None →
  height element ≤ fuel →
  getA11yLabel fuel document element
  = Some (trim (textContent
                 (Spec.relabelled (Spec.labelOf document) (cloneNode element)))).
Proof.
  intros Hlabel Hby Hfuel.
  assert (getA11yLabel fuel document element
          = getA11yLabel_body
              (match fuel with
               | S fuel' => getA11yLabel fuel' document
               | O => λ _, None
               end) document element) as -> by by destruct fuel.
  unfold getA11yLabel_body. rewrite Hlabel, Hby. cbv zeta.
  set (l := querySelectorAll labelled (cloneNode element)).
  pose proof (topDown_querySelectorAll labelled (cloneNode element)) as Htop.
  fold l in Htop.
  rewrite (forEach_written _ (Spec.labelOf document)); [|done|..].
  - simpl. do 3 f_equal. apply live_relabelled.
    + rewrite written_not_in; [done|].
      intros ([q c] & Hq & [_ Hin]%list_elem_of_filter)%list_elem_of_fmap.
      simpl in Hq. subst q. by apply descendants_nonempty in Hin.
    + intros q c Hqc. simpl. destruct (labelled c) eqn:Hc.
      * apply written_in; [by apply topDown_NoDup|].
        by apply list_elem_of_filter.
      * rewrite written_not_in; [done|].
        intros ([q' c'] & Hq & [Hc' Hin]%list_elem_of_filter)%list_elem_of_fmap.
        simpl in Hq, Hc'. subst q'.
        pose proof (topDown_NoDup _ (topDown_descendants (cloneNode element)))
          as Hnodup.
        assert (c = c') as <- by by eapply NoDup_fst_agree.
        congruence.
  - intros q pc [x Hx]. by rewrite lookup_empty in Hx.
  - intros [p c] Hc%querySelectorAll_height. rewrite height_cloneNode in Hc.
    simpl. destruct fuel as [|fuel]; [lia|].
    apply getA11yLabel_labelOf. lia.
Qed.

End Label.

(** ** Writes to the element and what they leave alone *)

Module WorldFacts.
Import JS DOM DOMFacts World.
#[local] Open Scope nat_scope.

Lemma nodeAt_updateAt p f e x :
  nodeAt p e = Some x → nodeAt p (updateAt p f e) = Some (f x).
Proof.
  revert e. induction p as [|i p IH]; intros [t a h l kids]; simpl.
  - by intros [= ->].
  - destruct (kids !! i) as [[d|c]|] eqn:Hi; [done| |done].
    intros Hx. simpl.
    rewrite list_lookup_insert_eq by by eapply lookup_lt_Some.
    by apply IH.
Qed.

Lemma updateAt_updateAt p f g e :
  updateAt p g (updateAt p f e) = updateAt p (λ x, g (f x)) e.
Proof.
  revert e. induction p as [|i p IH]; intros [t a h l kids]; simpl; [done|].
  destruct (kids !! i) as [[d|c]|] eqn:Hi; simpl; rewrite ?Hi; try done.
  rewrite list_lookup_insert_eq by by eapply lookup_lt_Some.
  by rewrite list_insert_insert_eq, IH.
Qed.

Lemma updateAt_ext p f g e x :
  nodeAt p e = Some x → f x = g x → updateAt p f e = updateAt p g e.
Proof.
  revert e. induction p as [|i p IH]; intros [t a h l kids]; simpl.
  - by intros [= ->].
  - destruct (kids !! i) as [[d|c]|] eqn:Hi; try done.
    intros Hx Hfg. by rewrite (IH c Hx Hfg).
Qed.

Lemma modify_ext f g w e :
  self w = Some e → f e = g e → modify f w = modify g w.
Proof.
  destruct w as [doc [p|x]]; unfold self, modify; simpl.
  - intros Hp Hfg. by rewrite (updateAt_ext p f g doc e).
  - intros [= ->] Hfg. by rewrite Hfg.
Qed.

Lemma modify_modify f g w :
  modify g (modify f w) = modify (λ x, g (f x)) w.
Proof.
  destruct w as [doc [p|x]]; unfold modify; simpl; [|done].
  by rewrite updateAt_updateAt.
Qed.

Lemma self_modify f w e : self w = Some e → self (modify f w) = Some (f e).
Proof.
  destruct w as [doc [p|x]]; unfold self, modify; simpl.
  - apply nodeAt_updateAt.
  - by intros [= ->].
Qed.

Lemma setAttribute_keeps name value :
  name ≠ "id" → keepsIdAndChildren (DOM.setAttribute name value).
Proof.
  intros Hname e.
  by rewrite getAttribute_setAttribute_ne, childNodes_setAttribute.
Qed.

Lemma textOf_insert (ns : list node) i c c' :
  ns !! i = Some (ElemNode c) → textContent c' = textContent c →
  textOf textContent (<[i := ElemNode c']> ns) = textOf textContent ns.
Proof.
  revert i. induction ns as [|n ns IH]; intros [|i]; simpl; try done.
  - intros [= ->] Hc. by rewrite Hc.
  - intros Hi Hc. by rewrite (IH i Hi Hc).
Qed.

Lemma textContent_updateAt p f e :
  keepsIdAndChildren f → textContent (updateAt p f e) = textContent e.
Proof.
  intros Hf. revert e. induction p as [|i p IH]; intros e; simpl.
  - destruct (Hf e) as [_ Hkids]. destruct e, (f _). simpl in *. by subst.
  - destruct e as [t a h l kids]. simpl.
    destruct (kids !! i) as [[d|c]|] eqn:Hi; try done.
    simpl. eapply textOf_insert; [done|apply IH].
Qed.

Lemma firstOf_insert (rec : element → option element) (ns : list node) i c c' :
  ns !! i = Some (ElemNode c) →
  textContent <$> rec c' = textContent <$> rec c →
  textContent <$> firstOf rec (<[i := ElemNode c']> ns)
  = textContent <$> firstOf rec ns.
Proof.
  revert i. induction ns as [|n ns IH]; intros [|i]; simpl; try done.
  - intros [= ->] Hc. destruct (rec c'), (rec c); simpl in *; done.
  - intros Hi Hc. destruct n as [d|k]; [by apply IH|].
    destruct (rec k); [done|]. by apply IH.
Qed.

Lemma findById_updateAt i p f e :
  keepsIdAndChildren f →
  textContent <$> findById i (updateAt p f e) = textContent <$> findById i e.
Proof.
  intros Hf. revert e. induction p as [|j p IH]; intros e.
  - simpl. destruct (Hf e) as [Hid Hkids].
    destruct e as [t a h l kids], (f _) as [t' a' h' l' kids'].
    unfold DOM.getAttribute in Hid. simpl in *. subst kids'. rewrite Hid.
    by case_bool_decide.
  - destruct e as [t a h l kids]. simpl.
    destruct (kids !! j) as [[d|c]|] eqn:Hj; try done.
    simpl. case_bool_decide; simpl.
    + f_equal. eapply textOf_insert; [done|]. by apply textContent_updateAt.
    + eapply firstOf_insert; [done|apply IH].
Qed.

(** A write of an attribute other than [id] to the element does not
    change the text [getElementById] leads to. *)
Lemma getElementById_modify f w i :
  keepsIdAndChildren f →
  textContent <$> getElementById (document (modify f w)) i
  = textContent <$> getElementById (document w) i.
Proof.
  intros Hf. unfold getElementById. destruct (String.eqb i ""); [done|].
  destruct w as [doc [p|x]]; unfold modify; simpl; [|done].
  by apply findById_updateAt.
Qed.

Lemma getAttribute_Some w e name :
  self w = Some e → World.getAttribute name w = DOM.getAttribute name e.
Proof. unfold World.getAttribute. by intros ->. Qed.

End WorldFacts.

(** ** The claims about getA11yLabel *)

Module LabelClaims.
Import JS DOM DOMFacts A11y Label.
#[local] Open Scope nat_scope.

(** C2. An element whose [aria-label] attribute is present and non-empty,
    with value [V], has the label [V], exactly as written: the result does
    not depend on the document, on the other attributes or on the
    descendants, and no fuel is asked for, that is, the function does not
    call itself. *)
Theorem getA11yLabel_aria_label (fuel : nat) (document element : element) (V : string) :
  getAttribute "aria-label" element = Some V → V ≠ "" →
  getA11yLabel fuel document element = Some V.
Proof.
  intros HV Hne.
  assert (truthy (getAttribute "aria-label" element) = true) as Htruthy.
  { apply JSFacts.truthy_Some. by exists V. }
  destruct fuel; simpl; unfold getA11yLabel_body; by rewrite Htruthy.
Qed.

Lemma getA11yLabel_aria_label_witness :
  getA11yLabel 0 Examples.page Examples.modal = Some "Close".
Proof.
  apply (getA11yLabel_aria_label 0 Examples.page Examples.modal "Close").
  - reflexivity.
  - discriminate.
Defined.

(** C3. An element without a non-empty [aria-label], whose
    [aria-labelledby] names an id that [getElementById] finds in the
    document, has as its label the text content of the element found,
    trimmed: the text of that element as it stands, not its label. *)
Theorem getA11yLabel_aria_labelledby (fuel : nat) (document element : element)
    (i : string) (labelledByElement : DOM.element) :
  truthy (getAttribute "aria-label" element) = false →
  getAttribute "aria-labelledby" element = Some i →
  getElementById document i = Some labelledByElement →
  getA11yLabel fuel document element = Some (trim (textContent labelledByElement)).
Proof.
  intros Hlabel Hi Hfound.
  destruct fuel; simpl; unfold getA11yLabel_body.
  all: by rewrite Hlabel, Hi; simpl; rewrite Hfound.
Qed.

Lemma getA11yLabel_aria_labelledby_witness :
  getA11yLabel 0 Examples.page Examples.modalByReference
  = Some "Account settings"
  ∧ getA11yLabel 0 Examples.pageWithNbsp Examples.byPadded = Some "Hello".
Proof.
  split.
  - apply (getA11yLabel_aria_labelledby 0 Examples.page
             Examples.modalByReference "title" Examples.title); reflexivity.
  - apply (getA11yLabel_aria_labelledby 0 Examples.pageWithNbsp
             Examples.byPadded "padded" Examples.padded); reflexivity.
Defined.

(** The spec's example for the second branch. *)
Example getA11yLabel_byX :
  getA11yLabel 0 Examples.pageWithX Examples.byX = Some "Hello".
Proof. reflexivity. Qed.

(** References in a circle, and a reference to an ancestor: the element
    referred to is read, its label is not computed. *)
Example getA11yLabel_cycles :
  getA11yLabel 0 Examples.pageWithCycles Examples.first = Some "B"
  ∧ getA11yLabel 0 Examples.pageWithCycles Examples.second = Some "A"
  ∧ getA11yLabel 1 Examples.pageWithCycles Examples.outer = Some "Out Out in".
Proof. by vm_compute. Qed.

(** C5. [getA11yLabel] returns on every element of every document: the
    recursive calls are on nodes below the clone of the element, so fuel
    equal to the height of the element is enough, and any larger amount
    gives the same label. The [aria-labelledby] attributes do not matter,
    as the function never calls itself on the element they lead to. *)
Theorem getA11yLabel_terminates (document element : element) :
  ∃ label, ∀ fuel, height element ≤ fuel →
    getA11yLabel fuel document element = Some label.
Proof.
  destruct (getA11yLabel_is_Some document (height element) element)
    as [label Hlabel]; [done|].
  exists label. intros fuel Hfuel. by apply (getA11yLabel_le _ (height element)).
Qed.

End LabelClaims.

(** ** getFirstHeadline and the headings of a tree *)

Module HeadlineFacts.
Import JS DOM DOMFacts A11y Spec.
#[local] Open Scope list_scope.

(** [find] after [filter]: the element found, and what comes before it. *)
Lemma find_filter_Some {A} (P : A → bool) (Q : A → Prop) `{!∀ x, Decision (Q x)}
    (l : list A) x :
  List.find P (filter Q l) = Some x →
  ∃ l1 l2, l = l1 ++ x :: l2 ∧ Q x ∧ P x = true
           ∧ ∀ y, y ∈ l1 → Q y → P y = false.
Proof.
  induction l as [|z l IH]; simpl; [done|].
  rewrite filter_cons. destruct (decide (Q z)) as [Hz|Hz]; simpl.
  - destruct (P z) eqn:HPz.
    + intros [= <-]. exists [], l. split_and!; try done.
      by intros ? ?%elem_of_nil.
    + intros (l1 & l2 & -> & ? & ? & Hl1)%IH. exists (z :: l1), l2.
      split_and!; try done.
      intros y [->|Hy]%elem_of_cons ?; [done|]. by apply Hl1.
  - intros (l1 & l2 & -> & ? & ? & Hl1)%IH. exists (z :: l1), l2.
    split_and!; try done.
    intros y [->|Hy]%elem_of_cons ?; [done|]. by apply Hl1.
Qed.

Lemma find_filter_None {A} (P : A → bool) (Q : A → Prop) `{!∀ x, Decision (Q x)}
    (l : list A) :
  List.find P (filter Q l) = None → ∀ y, y ∈ l → Q y → P y = false.
Proof.
  intros Hnone y Hy HQ.
  apply (find_none _ _ Hnone), list_elem_of_In, list_elem_of_filter. done.
Qed.

Lemma find_filter_first {A} (P : A → bool) (Q : A → Prop) `{!∀ x, Decision (Q x)}
    (l1 l2 : list A) x :
  Q x → P x = true → (∀ y, y ∈ l1 → Q y → P y = false) →
  List.find P (filter Q (l1 ++ x :: l2)) = Some x.
Proof.
  intros HQ HP. induction l1 as [|z l1 IH]; intros Hl1; simpl.
  - rewrite filter_cons_True by done. simpl. by rewrite HP.
  - rewrite filter_cons. destruct (decide (Q z)) as [Hz|Hz]; simpl.
    + rewrite (Hl1 z) by (done || by left). apply IH.
      intros y Hy. apply Hl1. by right.
    + apply IH. intros y Hy. apply Hl1. by right.
Qed.

Lemma find_filter_all {A} (P : A → bool) (Q : A → Prop) `{!∀ x, Decision (Q x)}
    (l : list A) :
  (∀ y, y ∈ l → Q y → P y = false) → List.find P (filter Q l) = None.
Proof.
  induction l as [|z l IH]; intros Hl; simpl; [done|].
  rewrite filter_cons. destruct (decide (Q z)) as [Hz|Hz]; simpl.
  - rewrite (Hl z) by (done || by left). apply IH.
    intros y Hy. apply Hl. by right.
  - apply IH. intros y Hy. apply Hl. by right.
Qed.

(** The selector of [getFirstHeadline] matches the headings. *)
Lemma headline_isHeading e : headline e = true ↔ isHeading e.
Proof.
  unfold headline, isHeading. rewrite bool_decide_eq_true.
  rewrite !elem_of_cons, elem_of_nil. tauto.
Qed.

Lemma nonblank_text e :
  negb (String.eqb (trim (textContent e)) "") = true
  ↔ trim (textContent e) ≠ "".
Proof. by rewrite negb_true_iff, String.eqb_neq. Qed.

Lemma getFirstHeadline_Some container text :
  getFirstHeadline container = Some text ↔ firstHeadingText container text.
Proof.
  unfold getFirstHeadline, querySelectorAll, firstHeadingText. split.
  - destruct (List.find _ _) as [[p h]|] eqn:Hfind; [|done]. intros [= <-].
    apply find_filter_Some in Hfind
      as (before & after & Hsplit & Hh & Htext & Hbefore).
    simpl in Hh, Htext. exists before, p, h, after.
    split_and!; [done|by apply headline_isHeading|done|by apply nonblank_text|].
    intros q h' Hq Hh'%headline_isHeading.
    specialize (Hbefore (q, h') Hq Hh'). simpl in Hbefore.
    by apply negb_false_iff, String.eqb_eq in Hbefore.
  - intros (before & p & h & after & -> & Hh & -> & Htext & Hbefore).
    rewrite (find_filter_first _ _ before after (p, h)); [done|..].
    + by apply headline_isHeading.
    + by apply nonblank_text.
    + intros [q h'] Hq Hh'%headline_isHeading. simpl.
      apply negb_false_iff, String.eqb_eq. by apply (Hbefore q).
Qed.

Lemma getFirstHeadline_None container :
  getFirstHeadline container = None ↔ noHeadingText container.
Proof.
  unfold getFirstHeadline, querySelectorAll, noHeadingText. split.
  - destruct (List.find _ _) as [[p h]|] eqn:Hfind; [done|]. intros _ p h Hin Hh.
    pose proof (find_filter_None _ _ _ Hfind (p, h) Hin) as Hnone.
    simpl in Hnone. apply headline_isHeading in Hh. specialize (Hnone Hh).
    by apply negb_false_iff, String.eqb_eq in Hnone.
  - intros Hnone. rewrite find_filter_all; [done|].
    intros [p h] Hin Hh%headline_isHeading. simpl.
    apply negb_false_iff, String.eqb_eq. by apply (Hnone p).
Qed.

End HeadlineFacts.

(** ** The claims about setModalA11yAttributes *)

Module ModalClaims.
Import JS DOM DOMFacts World WorldFacts A11y Spec.

Lemma getFirstHeadline_children e e' :
  childNodes e' = childNodes e → getFirstHeadline e' = getFirstHeadline e.
Proof. destruct e, e'. simpl. by intros ->. Qed.

(** What [replaceAriaLabelledByWithAriaLabel] does to an element with an
    [aria-labelledby] attribute. *)
Lemma replaceAriaLabelledByWithAriaLabel_self w e i :
  self w = Some e → DOM.getAttribute "aria-labelledby" e = Some i →
  match getElementById (document w) i with
  | Some labelledByElement =>
      self (replaceAriaLabelledByWithAriaLabel w)
      = Some (DOM.removeAttribute "aria-labelledby"
                (DOM.setAttribute "aria-label"
                   (trim (textContent labelledByElement)) e))
  | None => replaceAriaLabelledByWithAriaLabel w = w
  end.
Proof.
  intros Hself Hi. unfold replaceAriaLabelledByWithAriaLabel.
  rewrite (getAttribute_Some w e) by done. rewrite Hi. simpl.
  destruct (getElementById (document w) i) as [r|]; [|done].
  by apply self_modify, self_modify.
Qed.

Lemma getFirstHeadline_truthy e text :
  getFirstHeadline e = Some text → truthy (Some text) = true.
Proof.
  unfold getFirstHeadline.
  destruct (List.find _ _) as [h|] eqn:Hfind; [|done].
  intros [= <-]. by apply find_some in Hfind as [_ Hfind].
Qed.

Lemma withRoleAndModal_keeps : keepsIdAndChildren withRoleAndModal.
Proof.
  intros e. unfold withRoleAndModal. split.
  - destruct (negb _); by rewrite !getAttribute_setAttribute_ne.
  - destruct (negb _); by rewrite !childNodes_setAttribute.
Qed.

Lemma withRoleAndModal_getAttribute e name :
  name ≠ "role" → name ≠ "aria-modal" →
  DOM.getAttribute name (withRoleAndModal e) = DOM.getAttribute name e.
Proof.
  intros ??. unfold withRoleAndModal.
  destruct (negb _); by rewrite !getAttribute_setAttribute_ne.
Qed.

Lemma setModalA11yAttributes_first_writes w e :
  self w = Some e →
  World.setAttribute "aria-modal" "true"
    (if negb (truthy (World.getAttribute "role" w))
     then World.setAttribute "role" "dialog" w else w)
  = modify withRoleAndModal w.
Proof.
  intros Hself. rewrite (getAttribute_Some w e) by done.
  unfold World.setAttribute.
  destruct (negb _) eqn:Hrole; rewrite ?modify_modify.
  all: apply (modify_ext _ _ w e Hself).
  all: unfold withRoleAndModal; by rewrite Hrole.
Qed.

(** C6. On an element with an [aria-labelledby] attribute, the
    normalizer [replaceAriaLabelledByWithAriaLabel] does one of two
    things. If [getElementById] finds the id the attribute names, the
    element gets as [aria-label] the trimmed text content of the element
    found and loses [aria-labelledby]; its other attributes, tag, listeners
    and children stay. If the id is not found, nothing at all changes. *)
Theorem replaceAriaLabelledByWithAriaLabel_spec (w : world) (e : element) (i : string) :
  self w = Some e → DOM.getAttribute "aria-labelledby" e = Some i →
  (∀ labelledByElement,
     getElementById (document w) i = Some labelledByElement →
     ∃ e', self (replaceAriaLabelledByWithAriaLabel w) = Some e'
           ∧ DOM.getAttribute "aria-label" e'
             = Some (trim (textContent labelledByElement))
           ∧ DOM.getAttribute "aria-labelledby" e' = None
           ∧ (∀ name, name ≠ "aria-label" → name ≠ "aria-labelledby" →
                DOM.getAttribute name e' = DOM.getAttribute name e)
           ∧ tagName e' = tagName e ∧ hasClick e' = hasClick e
           ∧ listeners e' = listeners e ∧ childNodes e' = childNodes e)
  ∧ (getElementById (document w) i = None →
     replaceAriaLabelledByWithAriaLabel w = w).
Proof.
  intros Hself Hi.
  pose proof (replaceAriaLabelledByWithAriaLabel_self w e i Hself Hi) as H.
  split.
  - intros r Hr. rewrite Hr in H. eexists. split; [exact H|].
    split_and!.
    + rewrite getAttribute_removeAttribute_ne by done.
      apply getAttribute_setAttribute_eq.
    + apply getAttribute_removeAttribute_eq.
    + intros name ??. rewrite getAttribute_removeAttribute_ne by done.
      by apply getAttribute_setAttribute_ne.
    + by destruct e.
    + by destruct e.
    + by destruct e.
    + by destruct e.
  - intros Hr. by rewrite Hr in H.
Qed.

Lemma replaceAriaLabelledByWithAriaLabel_spec_witness :
  (∃ e', self (replaceAriaLabelledByWithAriaLabel Examples.modalInPage) = Some e'
         ∧ DOM.getAttribute "aria-label" e' = Some "Account settings"
         ∧ DOM.getAttribute "aria-labelledby" e' = None)
  ∧ (∃ e', self (replaceAriaLabelledByWithAriaLabel Examples.byPaddedInPage)
           = Some e'
           ∧ DOM.getAttribute "aria-label" e' = Some "Hello"
           ∧ DOM.getAttribute "aria-labelledby" e' = None)
  ∧ replaceAriaLabelledByWithAriaLabel
      (World Examples.page (Detached Examples.byPadded))
    = World Examples.page (Detached Examples.byPadded).
Proof.
  split_and!.
  - destruct (replaceAriaLabelledByWithAriaLabel_spec
                Examples.modalInPage Examples.modal "title" eq_refl eq_refl)
      as [Hfound _].
    destruct (Hfound Examples.title eq_refl) as (e' & He' & Hlabel & Hby & _).
    exists e'. split_and!; [exact He'|exact Hlabel|exact Hby].
  - destruct (replaceAriaLabelledByWithAriaLabel_spec
                Examples.byPaddedInPage Examples.byPadded "padded"
                eq_refl eq_refl)
      as [Hfound _].
    destruct (Hfound Examples.padded eq_refl) as (e' & He' & Hlabel & Hby & _).
    exists e'. split_and!; [exact He'|exact Hlabel|exact Hby].
  - refine (proj2 (replaceAriaLabelledByWithAriaLabel_spec
                     (World Examples.page (Detached Examples.byPadded))
                     Examples.byPadded "padded" eq_refl eq_refl) eq_refl).
Defined.

(** The element [setModalA11yAttributes] leaves behind, from the element
    and the document it was given. *)
Lemma setModalA11yAttributes_self w e :
  self w = Some e →
  let e2 := withRoleAndModal e in
  let labelledBy := DOM.getAttribute "aria-labelledby" e in
  ∃ e', self (setModalA11yAttributes w) = Some e' ∧
    if truthy labelledBy then
      match getElementById (document w) (ToString labelledBy) with
      | Some labelledByElement =>
          e' = DOM.removeAttribute "aria-labelledby"
                 (DOM.setAttribute "aria-label"
                    (trim (textContent labelledByElement)) e2)
      | None => e' = e2
      end
    else if truthy (DOM.getAttribute "aria-label" e) then e' = e2
    else
      match getFirstHeadline e with
      | Some text => e' = DOM.setAttribute "aria-label" text e2
      | None => e' = e2
      end.
Proof.
  intros Hself e2 labelledBy. unfold setModalA11yAttributes.
  rewrite (setModalA11yAttributes_first_writes w e Hself).
  set (w2 := modify withRoleAndModal w).
  assert (self w2 = Some e2) as Hself2 by by apply self_modify.
  rewrite !(getAttribute_Some w2 e2) by done. rewrite Hself2. simpl.
  rewrite (getFirstHeadline_children e e2) by apply withRoleAndModal_keeps.
  rewrite !(withRoleAndModal_getAttribute e) by done.
  fold labelledBy.
  destruct (truthy labelledBy) eqn:Hby.
  - rewrite andb_false_r.
    apply JSFacts.truthy_Some in Hby as (i & Hi & _).
    pose proof (replaceAriaLabelledByWithAriaLabel_self w2 e2 i Hself2) as H.
    rewrite (withRoleAndModal_getAttribute e) in H by done.
    specialize (H Hi).
    pose proof (getElementById_modify withRoleAndModal w i
                  withRoleAndModal_keeps) as Htext.
    fold w2 in Htext. rewrite Hi. simpl.
    destruct (getElementById (document w2) i) as [r2|],
      (getElementById (document w) i) as [r|]; simpl in Htext; try done.
    + eexists. split; [exact H|]. by injection Htext as ->.
    + exists e2. by rewrite H.
  - rewrite andb_true_r.
    destruct (truthy (DOM.getAttribute "aria-label" e)).
    { rewrite andb_false_r. by exists e2. }
    rewrite andb_true_r.
    destruct (getFirstHeadline e) as [text|] eqn:Htext.
    + rewrite (getFirstHeadline_truthy e text Htext).
      eexists. split; [|done]. by apply self_modify.
    + by exists e2.
Qed.

(** C1, as the code has it. After [setModalA11yAttributes] the element has
    [aria-modal="true"] and a non-empty role: ["dialog"] when its role
    attribute was absent or empty, its own non-empty role otherwise. For
    the label, a non-empty [aria-labelledby] that [getElementById] resolves
    comes first: [aria-label] becomes the trimmed text content of the
    element found, over an [aria-label] that was there, and
    [aria-labelledby] is removed. Otherwise a non-empty [aria-label] is
    kept as it is; otherwise, when [aria-labelledby] is absent or empty,
    [aria-label] becomes the text of the first heading that has text, if
    there is one; in every other case [aria-label] and [aria-labelledby]
    stay as they were. *)
Theorem setModalA11yAttributes_spec (w : world) (e : element) :
  self w = Some e →
  ∃ e', self (setModalA11yAttributes w) = Some e'
  ∧ DOM.getAttribute "aria-modal" e' = Some "true"
  ∧ truthy (DOM.getAttribute "role" e') = true
  ∧ DOM.getAttribute "role" e'
    = (if truthy (DOM.getAttribute "role" e)
       then DOM.getAttribute "role" e else Some "dialog")
  ∧ let label := DOM.getAttribute "aria-label" e in
    let labelledBy := DOM.getAttribute "aria-labelledby" e in
    match
      (if truthy labelledBy
       then getElementById (document w) (ToString labelledBy) else None)
    with
    | Some labelledByElement =>
        DOM.getAttribute "aria-label" e'
        = Some (trim (textContent labelledByElement))
        ∧ DOM.getAttribute "aria-labelledby" e' = None
    | None =>
        DOM.getAttribute "aria-labelledby" e' = labelledBy
        ∧ (truthy label = true ∨ truthy labelledBy = true →
           DOM.getAttribute "aria-label" e' = label)
        ∧ (truthy label = false → truthy labelledBy = false →
           (∀ text, firstHeadingText e text →
              DOM.getAttribute "aria-label" e' = Some text)
           ∧ (noHeadingText e → DOM.getAttribute "aria-label" e' = label))
    end.
Proof.
  intros Hself.
  destruct (setModalA11yAttributes_self w e Hself) as (e' & He' & Hcases).
  exists e'. split; [exact He'|].
  assert (DOM.getAttribute "aria-modal" (withRoleAndModal e) = Some "true")
    as Hmodal by apply getAttribute_setAttribute_eq.
  assert (DOM.getAttribute "role" (withRoleAndModal e)
          = (if truthy (DOM.getAttribute "role" e)
             then DOM.getAttribute "role" e else Some "dialog")) as Hrole.
  { unfold withRoleAndModal.
    rewrite getAttribute_setAttribute_ne by done.
    destruct (truthy (DOM.getAttribute "role" e)); cbn [negb]; [done|].
    apply getAttribute_setAttribute_eq. }
  assert (truthy (DOM.getAttribute "role" (withRoleAndModal e)) = true)
    as Htruthy.
  { rewrite Hrole. by destruct (truthy (DOM.getAttribute "role" e)) eqn:H. }
  pose proof (withRoleAndModal_getAttribute e "aria-label") as Hl.
  pose proof (withRoleAndModal_getAttribute e "aria-labelledby") as Hb.
  specialize (Hl ltac:(done) ltac:(done)).
  specialize (Hb ltac:(done) ltac:(done)).
  revert Hcases Hmodal Hrole Htruthy Hl Hb. generalize (withRoleAndModal e).
  intros e2 Hcases Hmodal Hrole Htruthy Hl Hb. cbv zeta.
  destruct (truthy (DOM.getAttribute "aria-labelledby" e)) eqn:Hby.
  - destruct (getElementById _ _) as [r|]; subst e'.
    + rewrite !getAttribute_removeAttribute_ne by done.
      rewrite !getAttribute_setAttribute_ne by done.
      rewrite getAttribute_removeAttribute_eq, getAttribute_setAttribute_eq.
      done.
    + by split_and!.
  - destruct (truthy (DOM.getAttribute "aria-label" e)) eqn:Hlabel.
    { subst e'. by split_and!. }
    destruct (getFirstHeadline e) as [text|] eqn:Hhead; subst e'.
    + rewrite !getAttribute_setAttribute_ne by done.
      rewrite getAttribute_setAttribute_eq.
      split_and!; try done.
      * by intros [?|?].
      * intros _ _. split.
        -- intros text' Htext'%HeadlineFacts.getFirstHeadline_Some. congruence.
        -- intros Hnone%HeadlineFacts.getFirstHeadline_None. congruence.
    + split_and!; try done. intros _ _. split; [|done].
      intros text' Htext'%HeadlineFacts.getFirstHeadline_Some. congruence.
Qed.

Lemma setModalA11yAttributes_spec_witness :
  (∃ e', self (setModalA11yAttributes Examples.modalInPage) = Some e'
         ∧ DOM.getAttribute "aria-modal" e' = Some "true"
         ∧ DOM.getAttribute "role" e' = Some "dialog"
         ∧ DOM.getAttribute "aria-label" e' = Some "Account settings"
         ∧ DOM.getAttribute "aria-labelledby" e' = None)
  ∧ (∃ e', self (setModalA11yAttributes Examples.titledInPage) = Some e'
           ∧ DOM.getAttribute "aria-modal" e' = Some "true"
           ∧ DOM.getAttribute "role" e' = Some "dialog"
           ∧ DOM.getAttribute "aria-label" e' = Some "Title").
Proof.
  split.
  - destruct (setModalA11yAttributes_spec Examples.modalInPage Examples.modal
                eq_refl)
      as (e' & He' & Hmodal & _ & Hrole & Hlabel & Hby).
    exists e'. split_and!;
      [exact He'|exact Hmodal|exact Hrole|exact Hlabel|exact Hby].
  - destruct (setModalA11yAttributes_spec Examples.titledInPage Examples.titled
                eq_refl)
      as (e' & He' & Hmodal & _ & Hrole & _ & _ & Hheading).
    exists e'. split_and!; [exact He'|exact Hmodal|exact Hrole|].
    refine (proj1 (Hheading eq_refl eq_refl) "Title" _).
    exists [([0], Examples.html "H2" [] [TextNode Examples.nbsp])], [1],
      (Examples.foreign "h3" [] [TextNode ("Title" +:+ Examples.nbsp)]),
      [([2], Examples.html "H2" [] [TextNode "Late"])].
    split; [reflexivity|]. split; [right; right; left; reflexivity|].
    split; [reflexivity|]. split; [discriminate|].
    intros q h' [= -> ->]%list_elem_of_singleton _. reflexivity.
Defined.

(** The spec's examples: a heading labels a modal without label attributes,
    and a reference is replaced by the text it leads to. *)
Example setModalA11yAttributes_heading :
  World.getAttribute "aria-label" (setModalA11yAttributes Examples.settingsModal)
  = Some "Settings"
  ∧ World.getAttribute "aria-labelledby"
      (setModalA11yAttributes Examples.settingsModal) = None
  ∧ World.getAttribute "role" (setModalA11yAttributes Examples.settingsModal)
    = Some "dialog".
Proof. by vm_compute. Qed.

(** C1 as stated fails on a modal that has both a non-empty [aria-label]
    and an [aria-labelledby] that resolves: the explicit label ["Close"]
    is overwritten by the text of the element referred to. On a modal
    with a heading and a resolving [aria-labelledby] the reference, not
    the heading, becomes the label. And on [<div role="">] a role
    attribute is present, and its value is replaced by ["dialog"]. *)
Lemma setModalA11yAttributes_overwrites_aria_label :
  World.getAttribute "aria-label" Examples.modalInPage = Some "Close"
  ∧ World.getAttribute "aria-label"
      (setModalA11yAttributes Examples.modalInPage)
    = Some "Account settings"
  ∧ (World.self Examples.modalByReferenceInPage ≫= getFirstHeadline)
    = Some "Preferences"
  ∧ World.getAttribute "aria-label"
      (setModalA11yAttributes Examples.modalByReferenceInPage)
    = Some "Account settings"
  ∧ World.getAttribute "role" Examples.emptyRole = Some ""
  ∧ World.getAttribute "role" (setModalA11yAttributes Examples.emptyRole)
    = Some "dialog".
Proof. by vm_compute. Qed.

End ModalClaims.

(** ** The claims about createA11yButton *)

Module ButtonClaims.
Import JS DOM DOMFacts World WorldFacts A11y Spec.
#[local] Open Scope list_scope.

Lemma createA11yButton_button options w e :
  self w = Some e → tagName e = "BUTTON" → createA11yButton options w = w.
Proof.
  intros Hself Htag. unfold createA11yButton. rewrite Hself, Htag. done.
Qed.

Lemma createA11yButton_self options w e :
  self w = Some e → tagName e ≠ "BUTTON" →
  self (createA11yButton options w) = Some (promoted options e).
Proof.
  intros Hself Htag%String.eqb_neq. unfold createA11yButton.
  rewrite Hself, Htag, (getAttribute_Some w e) by done.
  unfold promoted, World.addEventListener, World.setAttribute.
  apply self_modify, self_modify.
  destruct (negb _); [|done]. by apply self_modify.
Qed.

Lemma onKeydown_activating element e :
  activatingKey e → onKeydown element e = [PreventDefault; activation element].
Proof.
  destruct e as [k c]. unfold activatingKey, onKeydown, activation. simpl.
  intros [->|[->|[->|[-> [->| ->]]]]]; by destruct (hasClick element).
Qed.

Lemma onKeydown_other element e :
  ¬ activatingKey e → onKeydown element e = [].
Proof.
  destruct e as [k c]. unfold activatingKey, onKeydown. simpl.
  intros Hother.
  destruct k as [k|]; [|destruct c as [c|]].
  all: repeat case_bool_decide; simpl; try done.
  all: exfalso; apply Hother.
  all: repeat match goal with
         | H : _ ∈ _ :: _ |- _ => apply elem_of_cons in H as [H|H]
         | H : _ ∈ [] |- _ => by apply elem_of_nil in H
         | H : KString _ = KString _ |- _ => injection H as ->
         | H : KNumber _ = KNumber _ |- _ => injection H as ->
         | H : KNumber _ = KString _ |- _ => discriminate H
         | H : KUndefined = _ |- _ => discriminate H
         end; auto 10.
Qed.

Lemma keydown_self e w element :
  self w = Some element →
  keydown e w = listeners element ≫= (λ h, runListener element h e).
Proof. unfold keydown. by intros ->. Qed.

Lemma listeners_promoted options e :
  listeners (promoted options e) = listeners e ++ [SimulateClick].
Proof. unfold promoted. destruct (negb _); by destruct e. Qed.

Lemma hasClick_promoted options e : hasClick (promoted options e) = hasClick e.
Proof. unfold promoted. destruct (negb _); by destruct e. Qed.

Lemma tagName_promoted options e : tagName (promoted options e) = tagName e.
Proof. unfold promoted. destruct (negb _); by destruct e. Qed.

Lemma getAttribute_promoted options e name :
  DOM.getAttribute name (promoted options e)
  = DOM.getAttribute name
      (DOM.setAttribute "tabindex" "0"
         (if negb (truthy (DOM.getAttribute "role" e))
          then DOM.setAttribute "role" (default "button" options) e else e)).
Proof. unfold promoted. by destruct (DOM.setAttribute "tabindex" _ _). Qed.

Lemma role_promoted options e :
  DOM.getAttribute "role" (promoted options e)
  = if truthy (DOM.getAttribute "role" e) then DOM.getAttribute "role" e
    else Some (default "button" options).
Proof.
  rewrite getAttribute_promoted, getAttribute_setAttribute_ne by done.
  destruct (truthy (DOM.getAttribute "role" e)); cbn [negb]; [done|].
  apply getAttribute_setAttribute_eq.
Qed.

(** C7. On an element promoted once by [createA11yButton] (no native
    button, no handler registered before), a keydown event whose key is
    ["Enter"], [" "] or ["Spacebar"], or that has no key name and the key
    code 13 or 32, calls [preventDefault] and activates the element
    exactly once: by its own [click] method where it has one, by a
    bubbling synthetic click event otherwise. Any other key does
    nothing. *)
Theorem createA11yButton_keydown (options : option string) (w : world)
    (element : element) (e : keyEvent) :
  self w = Some element → tagName element ≠ "BUTTON" →
  listeners element = [] →
  (activatingKey e →
     keydown e (createA11yButton options w)
     = [PreventDefault;
        if hasClick element then Click else DispatchEvent "click" true]
     ∧ activations (keydown e (createA11yButton options w)) = 1)
  ∧ (¬ activatingKey e → keydown e (createA11yButton options w) = []).
Proof.
  intros Hself Htag Hnone.
  rewrite (keydown_self e _ _ (createA11yButton_self options w _ Hself Htag)).
  rewrite listeners_promoted, Hnone. simpl. rewrite app_nil_r.
  split.
  - intros Hkey. rewrite (onKeydown_activating _ _ Hkey).
    unfold activation. rewrite hasClick_promoted.
    split; [done|]. by destruct (hasClick element).
  - apply onKeydown_other.
Qed.

Lemma createA11yButton_keydown_witness :
  keydown Examples.legacySpace (createA11yButton None Examples.svgGroup)
  = [PreventDefault; DispatchEvent "click" true]
  ∧ keydown Examples.enter (createA11yButton None Examples.plainDiv)
    = [PreventDefault; Click]
  ∧ keydown Examples.letterA (createA11yButton None Examples.plainDiv) = [].
Proof.
  split_and!.
  - refine (proj1 (proj1 (createA11yButton_keydown None Examples.svgGroup _
                            Examples.legacySpace eq_refl _ eq_refl) _)).
    + discriminate.
    + right; right; right. split; [reflexivity|]. by right.
  - refine (proj1 (proj1 (createA11yButton_keydown None Examples.plainDiv _
                            Examples.enter eq_refl _ eq_refl) _)).
    + discriminate.
    + by left.
  - refine (proj2 (createA11yButton_keydown None Examples.plainDiv _
                     Examples.letterA eq_refl _ eq_refl) _).
    + discriminate.
    + by intros [?|[?|[?|[? _]]]].
Defined.

(** C8, as the code has it. On a native button [createA11yButton] changes
    nothing and registers no handler. On any other element the role
    attribute becomes the configured role (["button"] by default) when it
    was absent or empty, a non-empty role is left as it is, [tabindex]
    becomes ["0"] in every case, and no other attribute changes. *)
Theorem createA11yButton_attributes (options : option string) (w : world)
    (e : element) :
  self w = Some e →
  (tagName e = "BUTTON" → createA11yButton options w = w)
  ∧ (tagName e ≠ "BUTTON" →
     ∃ e', self (createA11yButton options w) = Some e'
     ∧ DOM.getAttribute "role" e'
       = (if truthy (DOM.getAttribute "role" e)
          then DOM.getAttribute "role" e
          else Some (default "button" options))
     ∧ DOM.getAttribute "tabindex" e' = Some "0"
     ∧ ∀ name, name ≠ "role" → name ≠ "tabindex" →
         DOM.getAttribute name e' = DOM.getAttribute name e).
Proof.
  intros Hself. split.
  - by apply createA11yButton_button.
  - intros Htag. exists (promoted options e).
    split; [by apply createA11yButton_self|].
    split; [apply role_promoted|].
    split.
    + rewrite getAttribute_promoted. apply getAttribute_setAttribute_eq.
    + intros name ??. rewrite getAttribute_promoted.
      rewrite getAttribute_setAttribute_ne by done.
      destruct (negb _); [|done]. by apply getAttribute_setAttribute_ne.
Qed.

Lemma createA11yButton_attributes_witness :
  (∃ e', self (createA11yButton None Examples.plainDiv) = Some e'
         ∧ DOM.getAttribute "role" e' = Some "button"
         ∧ DOM.getAttribute "tabindex" e' = Some "0")
  ∧ (∃ e', self (createA11yButton None Examples.linkDiv) = Some e'
           ∧ DOM.getAttribute "role" e' = Some "link"
           ∧ DOM.getAttribute "tabindex" e' = Some "0").
Proof.
  split.
  - destruct (createA11yButton_attributes None Examples.plainDiv _ eq_refl)
      as [_ H].
    destruct H as (e' & He' & Hrole & Htab & _); [discriminate|].
    exists e'. split_and!; [exact He'|exact Hrole|exact Htab].
  - destruct (createA11yButton_attributes None Examples.linkDiv _ eq_refl)
      as [_ H].
    destruct H as (e' & He' & Hrole & Htab & _); [discriminate|].
    exists e'. split_and!; [exact He'|exact Hrole|exact Htab].
Defined.

(** C8 as stated fails on [<div role="">]: a role attribute is present,
    and [createA11yButton] replaces its value. *)
Lemma createA11yButton_overrides_empty_role :
  World.getAttribute "role" Examples.emptyRole = Some ""
  ∧ World.getAttribute "role" (createA11yButton None Examples.emptyRole)
    = Some "button".
Proof. by vm_compute. Qed.

(** C10. [createA11yButton] called twice on an element that is no native
    button registers two handlers: each call adds one to the listeners
    there were. The second call leaves the attributes as the first call
    left them whenever the first call was configured with a non-empty role
    (the default ["button"] is one), since it then finds a role and
    [tabindex] is ["0"] already. On an element that had no handler before,
    one press of an activating key then runs both handlers and activates
    the element twice. *)
Theorem createA11yButton_twice (options1 options2 : option string) (w : world)
    (element : element) (e : keyEvent) :
  self w = Some element → tagName element ≠ "BUTTON" →
  let w1 := createA11yButton options1 w in
  let w2 := createA11yButton options2 w1 in
  ∃ e1 e2, self w1 = Some e1 ∧ self w2 = Some e2
  ∧ listeners e1 = listeners element ++ [SimulateClick]
  ∧ listeners e2 = listeners element ++ [SimulateClick; SimulateClick]
  ∧ (default "button" options1 ≠ "" → attributes e2 = attributes e1)
  ∧ (listeners element = [] → activatingKey e →
     keydown e w2
     = [PreventDefault; activation element;
        PreventDefault; activation element]
     ∧ activations (keydown e w2) = 2).
Proof.
  intros Hself Htag w1 w2.
  pose proof (createA11yButton_self options1 w _ Hself Htag) as Hself1.
  assert (tagName (promoted options1 element) ≠ "BUTTON") as Htag1
    by by rewrite tagName_promoted.
  pose proof (createA11yButton_self options2 w1 _ Hself1 Htag1) as Hself2.
  exists (promoted options1 element),
    (promoted options2 (promoted options1 element)).
  split; [done|]. split; [done|].
  split; [apply listeners_promoted|].
  split; [by rewrite !listeners_promoted, <-app_assoc|].
  split.
  - intros Hrole.
    assert (truthy (DOM.getAttribute "role" (promoted options1 element)) = true)
      as Htruthy.
    { rewrite role_promoted.
      destruct (truthy (DOM.getAttribute "role" element)) eqn:H; [done|].
      by apply JSFacts.truthy_Some; eexists. }
    pose proof (getAttribute_promoted options1 element "tabindex") as Htab.
    rewrite getAttribute_setAttribute_eq in Htab.
    revert Htruthy Htab. generalize (promoted options1 element).
    intros [t a h l kids] Htruthy Htab. unfold promoted.
    rewrite Htruthy. cbn [negb]. unfold DOM.getAttribute in Htab.
    cbn [attributes DOM.setAttribute DOM.addEventListener] in *.
    by apply insert_id.
  - intros Hnone Hkey.
    rewrite (keydown_self e w2 _ Hself2), !listeners_promoted, Hnone.
    cbn [app mbind list_bind runListener]. rewrite app_nil_r.
    rewrite !(onKeydown_activating _ _ Hkey). unfold activation.
    rewrite !hasClick_promoted. split; [done|].
    by destruct (hasClick element).
Qed.

Lemma createA11yButton_twice_witness :
  keydown Examples.space
    (createA11yButton None (createA11yButton None Examples.plainDiv))
  = [PreventDefault; Click; PreventDefault; Click].
Proof.
  destruct (createA11yButton_twice None None Examples.plainDiv _
              Examples.space eq_refl)
    as (e1 & e2 & _ & _ & _ & _ & _ & Hkeys); [discriminate|].
  refine (proj1 (Hkeys eq_refl _)). right. by left.
Defined.

End ButtonClaims.

(** ** The claim about addIdToElement *)

Module IdClaims.
Import JS DOM DOMFacts World WorldFacts A11y.

Lemma addIdToElement_has_id uuid w e :
  self w = Some e → truthyValue (id e) = true → addIdToElement uuid w = w.
Proof.
  intros Hself Hid. unfold addIdToElement. by rewrite Hself, Hid.
Qed.

Lemma addIdToElement_self uuid w e :
  self w = Some e →
  self (addIdToElement uuid w)
  = Some (if truthyValue (id e) then e else DOM.setAttribute "id" uuid e).
Proof.
  intros Hself. unfold addIdToElement. rewrite Hself.
  destruct (truthyValue (id e)); [done|]. by apply self_modify.
Qed.

Lemma id_attribute e :
  controlNamedId e = false →
  truthyValue (id e) = truthy (DOM.getAttribute "id" e).
Proof.
  intros Hnone. unfold id. rewrite Hnone.
  by destruct (DOM.getAttribute "id" e).
Qed.

Lemma id_truthy_attribute e :
  truthy (DOM.getAttribute "id" e) = true → truthyValue (id e) = true.
Proof.
  intros Hattr. unfold id. destruct (controlNamedId e); [done|].
  by destruct (DOM.getAttribute "id" e).
Qed.

(** X15. What holds of [addIdToElement] on every element: an element with
    a non-empty [id] attribute is left as it is, and a second call in
    succession changes nothing, whatever identifier it draws. On an element
    whose [id] property is not taken by a form control named ["id"], the
    [id] attribute is non-empty after the call, given that
    [crypto.randomUUID()] returned a non-empty string. *)
Theorem addIdToElement_idempotent (uuid1 uuid2 : string) (w : world) (e : element) :
  self w = Some e → uuid1 ≠ "" →
  let w1 := addIdToElement uuid1 w in
  let w2 := addIdToElement uuid2 w1 in
  (truthy (DOM.getAttribute "id" e) = true → w1 = w)
  ∧ w2 = w1
  ∧ ∃ e1, self w1 = Some e1 ∧ self w2 = Some e1
          ∧ (controlNamedId e = false →
             truthy (DOM.getAttribute "id" e1) = true).
Proof.
  intros Hself Huuid w1 w2.
  pose proof (addIdToElement_self uuid1 w e Hself) as Hself1. fold w1 in Hself1.
  set (e1 := if truthyValue (id e) then e else DOM.setAttribute "id" uuid1 e)
    in Hself1.
  assert (truthy (DOM.getAttribute "id" (DOM.setAttribute "id" uuid1 e)) = true)
    as Hset.
  { rewrite getAttribute_setAttribute_eq. apply JSFacts.truthy_Some. by eexists. }
  assert (truthyValue (id e1) = true) as Hid1.
  { unfold e1. destruct (truthyValue (id e)) eqn:Hid; [done|].
    by apply id_truthy_attribute. }
  assert (w2 = w1) as Hsame by by eapply addIdToElement_has_id.
  split.
  { intros Hattr. by apply (addIdToElement_has_id _ _ e), id_truthy_attribute. }
  split; [done|].
  exists e1. split; [exact Hself1|]. split; [by rewrite Hsame|].
  intros Hnone. unfold e1.
  destruct (truthyValue (id e)) eqn:Hid; [|done].
  by rewrite <-id_attribute.
Qed.

Lemma addIdToElement_idempotent_witness :
  let w1 := addIdToElement "3b241101-e2bb-4255-8caf-4136c566a962"
              Examples.plainDiv in
  addIdToElement "9c5b94b1-35ad-49bb-b118-8e8fc24abf80" w1 = w1
  ∧ (self w1 ≫= DOM.getAttribute "id")
    = Some "3b241101-e2bb-4255-8caf-4136c566a962".
Proof.
  destruct (addIdToElement_idempotent
              "3b241101-e2bb-4255-8caf-4136c566a962"
              "9c5b94b1-35ad-49bb-b118-8e8fc24abf80"
              Examples.plainDiv _ eq_refl)
    as (_ & Hsame & _); [discriminate|].
  split; [exact Hsame|reflexivity].
Defined.

(** C9 at [<form><input name="id"></form>], a form without an [id]
    attribute. The [id] property of the form reads as the control named
    ["id"], which is an object and truthy, so [addIdToElement] returns at
    its first test and writes nothing: after the call the form still has
    no [id] attribute, where a non-empty id is expected after any call. *)
Theorem addIdToElement_control_named_id (uuid : string) :
  World.getAttribute "id" Examples.formWithControl = None
  ∧ (World.self Examples.formWithControl ≫= λ e, Some (truthyValue (id e)))
    = Some true
  ∧ addIdToElement uuid Examples.formWithControl = Examples.formWithControl
  ∧ World.getAttribute "id" (addIdToElement uuid Examples.formWithControl)
    = None.
Proof. by split_and!. Qed.

End IdClaims.

(** ** getA11yLabel on an element without label attributes *)

Module FallThrough.
Import JS DOM A11y.

(** The spec's example: the labelled descendant gives its label, not its
    text. *)
Example getA11yLabel_helloWorld :
  getA11yLabel 1 Examples.helloWorld Examples.helloWorld = Some "Hello World".
Proof. reflexivity. Qed.

(** C4 at an element that has neither [aria-label] nor [aria-labelledby],
    in a document where some element has the id ["null"]. The missing
    attribute reads as [null], [getElementById(null)] looks for the id
    ["null"], and the label is the text of the element found: ["X"], where
    the text content of the element itself, ["Hello"], is expected. *)
Theorem getA11yLabel_null_id (fuel : nat) :
  getAttribute "aria-label" Examples.greeting = None
  ∧ getAttribute "aria-labelledby" Examples.greeting = None
  ∧ trim (textContent (cloneNode Examples.greeting)) = "Hello"
  ∧ getA11yLabel fuel Examples.pageWithNullId Examples.greeting = Some "X".
Proof. split_and!; try reflexivity. by destruct fuel. Qed.

End FallThrough.


(** * Further properties of the code *)

(** ** More about the tree *)

Module TreeFacts.
Import JS DOM DOMFacts.
#[local] Open Scope nat_scope.
#[local] Open Scope list_scope.

(** The descendants are the elements the non-empty paths lead to. *)
Lemma elem_of_descendants_nodeAt e p c :
  (p, c) ∈ descendants e ↔ p ≠ [] ∧ nodeAt p e = Some c.
Proof.
  revert p c. induction e as [t a h l kids IH] using element_ind'.
  intros p c. rewrite elem_of_descendants. split.
  - intros (j & k & Hk & [[-> ->]|(q & -> & Hq)]).
    + split; [done|]. simpl. by rewrite Hk.
    + split; [done|]. simpl. rewrite Hk. by apply (IH j k Hk).
  - intros [Hp Hc]. destruct p as [|j q]; [done|]. simpl in Hc.
    destruct (kids !! j) as [[d|k]|] eqn:Hk; try done.
    exists j, k. split; [done|].
    destruct q as [|j' q].
    + left. simpl in Hc. by injection Hc as ->.
    + right. exists (j' :: q). split; [done|]. by apply (IH j k Hk).
Qed.

Lemma textOf_mapChildren (f : nat → element → element) i ns :
  (∀ j c, ns !! j = Some (ElemNode c) → textContent (f (i + j) c) = textContent c) →
  textOf textContent (mapChildren f i ns) = textOf textContent ns.
Proof.
  revert i. induction ns as [|[d|k] ns IH]; intros i Hf; simpl; [done|..].
  - f_equal. apply IH. intros j c Hj.
    replace (S i + j) with (i + S j) by lia. by apply Hf.
  - f_equal.
    + specialize (Hf 0 k eq_refl). by rewrite Nat.add_0_r in Hf.
    + apply IH. intros j c Hj. replace (S i + j) with (i + S j) by lia.
      by apply Hf.
Qed.

Lemma textContent_cloneNode e : textContent (cloneNode e) = textContent e.
Proof.
  induction e as [t a h l kids IH] using element_ind'. simpl.
  apply textOf_mapChildren. intros j c Hc. by apply (IH j c).
Qed.

Lemma getAttribute_cloneNode name e :
  getAttribute name (cloneNode e) = getAttribute name e.
Proof. by destruct e. Qed.

Lemma lookup_mapChildren (f : nat → element → element) i ns j c' :
  mapChildren f i ns !! j = Some (ElemNode c') →
  ∃ c, ns !! j = Some (ElemNode c) ∧ c' = f (i + j) c.
Proof.
  revert i j. induction ns as [|n ns IH]; intros i j; simpl; [done|].
  destruct j as [|j]; simpl.
  - destruct n as [d|k]; [done|]. intros [= <-]. exists k.
    by rewrite Nat.add_0_r.
  - destruct n as [d|k]; simpl; intros (c & Hc & ->)%IH; exists c;
      (split; [done|]); f_equal; lia.
Qed.

(** The clone has the descendants of the element, cloned. *)
Lemma descendants_cloneNode e p c' :
  (p, c') ∈ descendants (cloneNode e) →
  ∃ c, (p, c) ∈ descendants e ∧ c' = cloneNode c.
Proof.
  revert p c'. induction e as [t a h l kids IH] using element_ind'.
  intros p c'. simpl cloneNode. rewrite elem_of_descendants.
  intros (j & k' & (k & Hk & ->)%lookup_mapChildren & Hcases).
  destruct Hcases as [[-> ->]|(q & -> & Hq)].
  - exists k. split; [|done]. apply elem_of_descendants.
    exists j, k. split; [done|]. by left.
  - apply (IH j k Hk) in Hq as (c & Hc & ->). exists c. split; [|done].
    apply elem_of_descendants. exists j, k. split; [done|]. right. by exists q.
Qed.

End TreeFacts.

(** ** String.prototype.trim *)

Module TrimFacts.
Import JS.

Lemma trimEnd_trimEnd s : trimEnd (trimEnd s) = trimEnd s.
Proof.
  induction s as [|c s IH]; simpl; [done|].
  destruct (trimEnd s) as [|d r] eqn:Hs.
  - destruct (isWhiteSpace c) eqn:Hc; simpl; [done|]. by rewrite Hc.
  - change (trimEnd (String c (String d r)))
      with (match trimEnd (String d r) with
            | EmptyString =>
                if isWhiteSpace c then EmptyString else String c EmptyString
            | rest => String c rest
            end).
    by rewrite IH.
Qed.

(** A string that does not begin with white space. *)
Lemma trimStart_head s :
  match trimStart s with
  | String c _ => isWhiteSpace c = false
  | EmptyString => True
  end.
Proof.
  induction s as [|c s IH]; simpl; [done|].
  by destruct (isWhiteSpace c) eqn:Hc.
Qed.

Lemma trimStart_trimEnd s :
  match s with
  | String c _ => isWhiteSpace c = false
  | EmptyString => True
  end →
  trimStart (trimEnd s) = trimEnd s.
Proof.
  destruct s as [|c s]; simpl; [done|]. intros Hc.
  destruct (trimEnd s); rewrite ?Hc; simpl; by rewrite Hc.
Qed.

Lemma lastChar_trimEnd s c :
  Spec.lastChar (trimEnd s) = Some c → isWhiteSpace c = false.
Proof.
  induction s as [|a s IH]; simpl; [done|].
  destruct (trimEnd s) as [|d r] eqn:Hs.
  - destruct (isWhiteSpace a) eqn:Ha; simpl; [done|]. congruence.
  - exact IH.
Qed.

Lemma firstChar_trim s c :
  Spec.firstChar (trim s) = Some c → isWhiteSpace c = false.
Proof.
  unfold trim. pose proof (trimStart_head s) as Hhead.
  pose proof (trimStart_trimEnd (trimStart s) Hhead) as Hsame.
  pose proof (trimStart_head (trimEnd (trimStart s))) as Hc.
  rewrite Hsame in Hc. destruct (trimEnd (trimStart s)); simpl; [done|].
  congruence.
Qed.

Lemma trim_trim s : trim (trim s) = trim s.
Proof.
  unfold trim. rewrite (trimStart_trimEnd (trimStart s)).
  - apply trimEnd_trimEnd.
  - apply trimStart_head.
Qed.

End TrimFacts.

(** ** getFirstHeadline *)

Module Headline.
Import JS DOM DOMFacts TreeFacts HeadlineFacts A11y.
#[local] Open Scope list_scope.

(** X1. [getFirstHeadline] looks at the headings strictly below the
    container, in tree order; a heading is an element whose local name is
    [h1] to [h6]. It returns a text exactly when that text is the trimmed
    text content of the first such heading whose trimmed text content is not
    empty, and it returns [null] exactly when every heading below the
    container has only white space as its text. The elements looked at are
    the ones the non-empty paths lead to: the container itself is never
    the heading found. *)
Theorem getFirstHeadline_spec (container : element) :
  (∀ text, getFirstHeadline container = Some text
           ↔ Spec.firstHeadingText container text)
  ∧ (getFirstHeadline container = None ↔ Spec.noHeadingText container)
  ∧ ∀ p h, (p, h) ∈ descendants container
           ↔ p ≠ [] ∧ nodeAt p container = Some h.
Proof.
  split_and!.
  - intros text. apply getFirstHeadline_Some.
  - apply getFirstHeadline_None.
  - intros p h. apply elem_of_descendants_nodeAt.
Qed.

(** A heading with only a no-break space is passed over, a heading of
    another namespace is found by its local name, and a container that is
    a heading itself is not looked at. *)
Example getFirstHeadline_titled :
  getFirstHeadline Examples.titled = Some "Title"
  ∧ getFirstHeadline (Examples.html "H1" [] [TextNode "Top"]) = None.
Proof. by vm_compute. Qed.

End Headline.

(** ** More about getA11yLabel *)

Module LabelMore.
Import JS DOM DOMFacts TreeFacts A11y Spec Label.
#[local] Open Scope nat_scope.
#[local] Open Scope list_scope.

Lemma getA11yLabel_unfold fuel document element :
  getA11yLabel fuel document element
  = getA11yLabel_body
      (match fuel with
       | S fuel' => getA11yLabel fuel' document
       | O => λ _, None
       end) document element.
Proof. by destruct fuel. Qed.

Lemma labelled_cloneNode e : labelled (cloneNode e) = labelled e.
Proof. unfold labelled. by rewrite !getAttribute_cloneNode. Qed.

Lemma querySelectorAll_cloneNode_nil e :
  querySelectorAll labelled e = [] →
  querySelectorAll labelled (cloneNode e) = [].
Proof.
  unfold querySelectorAll. intros Hnil.
  destruct (filter _ (descendants (cloneNode e))) as [|[p c'] l] eqn:Hclone;
    [done|exfalso].
  assert ((p, c') ∈ filter (λ pc, labelled pc.2 = true) (descendants (cloneNode e)))
    as [Hc' Hin]%list_elem_of_filter by (rewrite Hclone; by left).
  apply descendants_cloneNode in Hin as (c & Hin & ->).
  simpl in Hc'. rewrite labelled_cloneNode in Hc'.
  assert ((p, c) ∈ filter (λ pc, labelled pc.2 = true) (descendants e)) as Hp
    by by apply list_elem_of_filter.
  rewrite Hnil in Hp. by apply elem_of_nil in Hp.
Qed.

(** X2. The third branch of [getA11yLabel]. For an element without a
    non-empty [aria-label], for which [getElementById] finds nothing under
    the string its [aria-labelledby] converts to, the label is the trimmed
    text content of the clone of its subtree in which every element carrying
    [aria-label] or [aria-labelledby] has got, as its text content, its own
    label: the label [getA11yLabel] returns for that element with any fuel
    that covers its height. Fuel that covers the height of the element is
    enough. *)
Theorem getA11yLabel_fall_through (fuel : nat) (document element : element) :
  truthy (getAttribute "aria-label" element) = false →
  getElementById document (ToString (getAttribute "aria-labelledby" element))
  = None →
  height element ≤ fuel →
  (∀ c fuel', height c ≤ fuel' →
     getA11yLabel fuel' document c = Some (labelOf document c))
  ∧ getA11yLabel fuel document element
    = Some (trim (textContent
                   (relabelled (labelOf document) (cloneNode element)))).
Proof.
  intros Hlabel Hby Hfuel. split.
  - intros c fuel' Hc. by apply getA11yLabel_labelOf.
  - by apply getA11yLabel_relabelled.
Qed.

Lemma getA11yLabel_fall_through_witness :
  getA11yLabel 1 Examples.helloWorld Examples.helloWorld = Some "Hello World"
  ∧ getA11yLabel 1 Examples.page Examples.paddedHelloWorld
    = Some "Hello World".
Proof.
  split.
  - refine (proj2 (getA11yLabel_fall_through 1 Examples.helloWorld
                     Examples.helloWorld eq_refl eq_refl _)).
    vm_compute. lia.
  - refine (proj2 (getA11yLabel_fall_through 1 Examples.page
                     Examples.paddedHelloWorld eq_refl eq_refl _)).
    vm_compute. lia.
Defined.

(** X3. An element without a non-empty [aria-label], for which
    [getElementById] finds nothing under the string its [aria-labelledby]
    converts to, and below which no element carries [aria-label] or
    [aria-labelledby], has its own trimmed text content as its label, and
    the function does not call itself to find it. *)
Theorem getA11yLabel_plain (fuel : nat) (document element : element) :
  truthy (getAttribute "aria-label" element) = false →
  getElementById document (ToString (getAttribute "aria-labelledby" element))
  = None →
  querySelectorAll labelled element = [] →
  getA11yLabel fuel document element = Some (trim (textContent element)).
Proof.
  intros Hlabel Hby Hnone. rewrite getA11yLabel_unfold.
  unfold getA11yLabel_body. rewrite Hlabel, Hby. cbv zeta.
  rewrite (querySelectorAll_cloneNode_nil _ Hnone). simpl.
  rewrite live_id by (intros r; apply lookup_empty).
  by rewrite textContent_cloneNode.
Qed.

Lemma getA11yLabel_plain_witness :
  getA11yLabel 0 Examples.page Examples.helloThere = Some "Hello there"
  ∧ getA11yLabel 0 Examples.page Examples.paddedHi = Some "Hi there".
Proof.
  split.
  - apply (getA11yLabel_plain 0 Examples.page Examples.helloThere);
      reflexivity.
  - apply (getA11yLabel_plain 0 Examples.page Examples.paddedHi); reflexivity.
Defined.

(** X4. Only an explicit [aria-label] is returned as it is written: the
    label of an element without a non-empty [aria-label] neither begins nor
    ends with white space (a no-break space included), and trimming it
    again changes nothing. *)
Theorem getA11yLabel_trimmed (fuel : nat) (document element : element)
    (label : string) :
  truthy (getAttribute "aria-label" element) = false →
  getA11yLabel fuel document element = Some label →
  trim label = label
  ∧ (∀ c, firstChar label = Some c → isWhiteSpace c = false)
  ∧ (∀ c, lastChar label = Some c → isWhiteSpace c = false).
Proof.
  intros Hlabel. rewrite getA11yLabel_unfold.
  unfold getA11yLabel_body. rewrite Hlabel. cbv zeta.
  assert (∀ s, Some (trim s) = Some label →
               trim label = label
               ∧ (∀ c, firstChar label = Some c → isWhiteSpace c = false)
               ∧ (∀ c, lastChar label = Some c → isWhiteSpace c = false))
    as Htrim.
  { intros s [= <-]. split_and!.
    - apply TrimFacts.trim_trim.
    - apply TrimFacts.firstChar_trim.
    - intros c. apply TrimFacts.lastChar_trimEnd. }
  destruct (getElementById _ _); [apply Htrim|].
  destruct (forEach _ _ _); simpl; [apply Htrim|done].
Qed.

Lemma getA11yLabel_trimmed_witness :
  trim "Hello" = "Hello"
  ∧ (∀ c, firstChar "Hello" = Some c → isWhiteSpace c = false)
  ∧ (∀ c, lastChar "Hello" = Some c → isWhiteSpace c = false).
Proof.
  apply (getA11yLabel_trimmed 0 Examples.pageWithNbsp Examples.byPadded);
    reflexivity.
Defined.

(** X13. An element without an [aria-labelledby] attribute is looked up
    under the id ["null"]: when its [aria-label] is absent or empty and the
    document has an element with the id ["null"], the label of the element
    is the trimmed text content of that element, whatever the element
    itself contains. *)
Theorem getA11yLabel_missing_reference (fuel : nat) (document element r : element) :
  truthy (getAttribute "aria-label" element) = false →
  getAttribute "aria-labelledby" element = None →
  getElementById document "null" = Some r →
  getA11yLabel fuel document element = Some (trim (textContent r)).
Proof.
  intros Hlabel Hby Hr. rewrite getA11yLabel_unfold.
  unfold getA11yLabel_body. rewrite Hlabel, Hby. simpl. by rewrite Hr.
Qed.

Lemma getA11yLabel_missing_reference_witness :
  getA11yLabel 0 Examples.pageWithNullId Examples.helloWorld = Some "X"
  ∧ getA11yLabel 0 Examples.pageWithPaddedNull Examples.helloWorld
    = Some "Nothing".
Proof.
  split.
  - refine (getA11yLabel_missing_reference 0 Examples.pageWithNullId
              Examples.helloWorld _ eq_refl eq_refl eq_refl).
  - refine (getA11yLabel_missing_reference 0 Examples.pageWithPaddedNull
              Examples.helloWorld _ eq_refl eq_refl eq_refl).
Defined.

(** The label depends on the document only through the text
    [getElementById] leads to. *)
Lemma forEach_ext {A S} (f g : A → S → option S) (l : list A) (s : S) :
  (∀ x s', f x s' = g x s') → forEach f l s = forEach g l s.
Proof.
  intros Hfg. revert s. induction l as [|x l IH]; intros s; simpl; [done|].
  rewrite Hfg. by destruct (g x s).
Qed.

Lemma getA11yLabel_body_ext (f g : element → option string) doc doc' e :
  (∀ x, f x = g x) →
  (∀ i, textContent <$> getElementById doc i
        = textContent <$> getElementById doc' i) →
  getA11yLabel_body f doc e = getA11yLabel_body g doc' e.
Proof.
  intros Hfg Hdoc. unfold getA11yLabel_body.
  destruct (truthy _); [done|]. cbv zeta.
  specialize (Hdoc (ToString (getAttribute "aria-labelledby" e))).
  destruct (getElementById doc _), (getElementById doc' _);
    simpl in Hdoc; try done.
  - by injection Hdoc as ->.
  - erewrite forEach_ext; [done|]. intros [p c] σ. by rewrite Hfg.
Qed.

Lemma getA11yLabel_document fuel doc doc' e :
  (∀ i, textContent <$> getElementById doc i
        = textContent <$> getElementById doc' i) →
  getA11yLabel fuel doc e = getA11yLabel fuel doc' e.
Proof.
  intros Hdoc. revert e. induction fuel as [|fuel IH]; intros e.
  all: rewrite !getA11yLabel_unfold; by apply getA11yLabel_body_ext.
Qed.

(** The label depends on the element only through its two label attributes
    and its child nodes. *)
Lemma getA11yLabel_root fuel doc e e' :
  getAttribute "aria-label" e' = getAttribute "aria-label" e →
  getAttribute "aria-labelledby" e' = getAttribute "aria-labelledby" e →
  childNodes e' = childNodes e →
  getA11yLabel fuel doc e' = getA11yLabel fuel doc e.
Proof.
  intros Hlabel Hby Hkids. rewrite !getA11yLabel_unfold.
  unfold getA11yLabel_body. rewrite Hlabel, Hby.
  destruct (truthy _); [done|]. cbv zeta.
  destruct (getElementById _ _); [done|].
  destruct e as [t a h l kids], e' as [t' a' h' l' kids'].
  simpl in Hkids. subst kids'.
  change (querySelectorAll labelled (cloneNode (Element t' a' h' l' kids)))
    with (querySelectorAll labelled (cloneNode (Element t a h l kids))).
  destruct (forEach _ _ _) as [σ|]; [|done]. simpl.
  by destruct (σ !! []).
Qed.

End LabelMore.

(** ** More about setModalA11yAttributes *)

Module ModalMore.
Import JS DOM DOMFacts World WorldFacts A11y Spec ModalClaims.

Lemma setAttribute_same name value e :
  DOM.getAttribute name e = Some value → DOM.setAttribute name value e = e.
Proof. destruct e. unfold DOM.getAttribute. simpl. intros H. by rewrite insert_id. Qed.

(** The whole effect of [setModalA11yAttributes] is one write to the
    element. *)
Lemma setModalA11yAttributes_modify w e :
  self w = Some e →
  setModalA11yAttributes w = modify (modalOutcome (textById (document w))) w.
Proof.
  intros Hself. unfold setModalA11yAttributes.
  rewrite (setModalA11yAttributes_first_writes w e Hself).
  set (w2 := modify withRoleAndModal w).
  assert (self w2 = Some (withRoleAndModal e)) as Hself2 by by apply self_modify.
  rewrite !(getAttribute_Some w2 _ _ Hself2). rewrite Hself2. simpl.
  rewrite (getFirstHeadline_children e) by apply withRoleAndModal_keeps.
  rewrite !(withRoleAndModal_getAttribute e) by done.
  destruct (truthy (DOM.getAttribute "aria-labelledby" e)) eqn:Hby.
  - rewrite andb_false_r. unfold replaceAriaLabelledByWithAriaLabel.
    rewrite (getAttribute_Some w2 _ _ Hself2).
    rewrite (withRoleAndModal_getAttribute e) by done.
    pose proof (getElementById_modify withRoleAndModal w
                  (ToString (DOM.getAttribute "aria-labelledby" e))
                  withRoleAndModal_keeps) as Htext.
    fold w2 in Htext.
    destruct (getElementById (document w2) _) as [r2|] eqn:Hr2.
    + unfold World.removeAttribute, World.setAttribute, w2.
      rewrite !modify_modify. apply (modify_ext _ _ w e Hself).
      unfold modalOutcome, textById. rewrite Hby, <-Htext. done.
    + apply (modify_ext _ _ w e Hself).
      unfold modalOutcome, textById. rewrite Hby, <-Htext. done.
  - rewrite andb_true_r.
    destruct (truthy (DOM.getAttribute "aria-label" e)) eqn:Hlabel.
    { rewrite andb_false_r. apply (modify_ext _ _ w e Hself).
      unfold modalOutcome. by rewrite Hby, Hlabel. }
    rewrite andb_true_r.
    destruct (getFirstHeadline e) as [text|] eqn:Htext.
    + rewrite (getFirstHeadline_truthy e text Htext).
      unfold World.setAttribute, w2. rewrite modify_modify.
      apply (modify_ext _ _ w e Hself).
      unfold modalOutcome. by rewrite Hby, Hlabel, Htext.
    + apply (modify_ext _ _ w e Hself).
      unfold modalOutcome. by rewrite Hby, Hlabel, Htext.
Qed.

Lemma modalOutcome_keeps text : keepsIdAndChildren (modalOutcome text).
Proof.
  intros e. destruct (withRoleAndModal_keeps e) as [Hid Hkids].
  unfold modalOutcome.
  repeat match goal with
         | |- context [if ?b then _ else _] => destruct b
         | |- context [match ?o with Some _ => _ | None => _ end] => destruct o
         end.
  all: rewrite ?getAttribute_removeAttribute_ne, ?getAttribute_setAttribute_ne,
         ?childNodes_removeAttribute, ?childNodes_setAttribute by done.
  all: done.
Qed.

Lemma setModalA11yAttributes_textById w e i :
  self w = Some e →
  textById (document (setModalA11yAttributes w)) i = textById (document w) i.
Proof.
  intros Hself. rewrite (setModalA11yAttributes_modify w e Hself).
  apply getElementById_modify, modalOutcome_keeps.
Qed.

Lemma setModalA11yAttributes_outcome w e :
  self w = Some e →
  self (setModalA11yAttributes w)
  = Some (modalOutcome (textById (document w)) e).
Proof.
  intros Hself. rewrite (setModalA11yAttributes_modify w e Hself).
  by apply self_modify.
Qed.

(** X6. [setModalA11yAttributes] writes four attributes of the element at
    most: [role], [aria-modal], [aria-label] and [aria-labelledby]. The tag,
    the child nodes, the listeners and every other attribute of the element
    stay as they were, the [id] among them; and for every id the text of
    the element [getElementById] finds in the document is the same before
    and after the call, also where the modal is part of the document. *)
Theorem setModalA11yAttributes_frame (w : world) (e : element) :
  self w = Some e →
  ∃ e', self (setModalA11yAttributes w) = Some e'
  ∧ tagName e' = tagName e ∧ childNodes e' = childNodes e
  ∧ listeners e' = listeners e ∧ hasClick e' = hasClick e
  ∧ (∀ name, name ∉ ["role"; "aria-modal"; "aria-label"; "aria-labelledby"] →
       DOM.getAttribute name e' = DOM.getAttribute name e)
  ∧ ∀ i, textContent <$> getElementById (document (setModalA11yAttributes w)) i
         = textContent <$> getElementById (document w) i.
Proof.
  intros Hself. eexists. split; [by apply setModalA11yAttributes_outcome|].
  split_and!.
  5: { intros name Hname.
       assert (name ≠ "role" ∧ name ≠ "aria-modal" ∧ name ≠ "aria-label"
               ∧ name ≠ "aria-labelledby") as (? & ? & ? & ?).
       { split_and!; intros ->; apply Hname; set_solver. }
       unfold modalOutcome.
       repeat match goal with
              | |- context [if ?b then _ else _] => destruct b
              | |- context [match ?o with Some _ => _ | None => _ end] =>
                  destruct o
              end.
       all: rewrite ?getAttribute_removeAttribute_ne,
              ?getAttribute_setAttribute_ne by done.
       all: by apply withRoleAndModal_getAttribute. }
  5: { intros i. by apply (setModalA11yAttributes_textById w e). }
  all: unfold modalOutcome, withRoleAndModal.
  all: repeat match goal with
              | |- context [if ?b then _ else _] => destruct b
              | |- context [match ?o with Some _ => _ | None => _ end] =>
                  destruct o
              end.
  all: by destruct e.
Qed.

Lemma setModalA11yAttributes_frame_witness :
  ∃ e', self (setModalA11yAttributes Examples.modalInPage) = Some e'
        ∧ childNodes e' = childNodes Examples.modal
        ∧ textContent <$> getElementById
                            (document (setModalA11yAttributes Examples.modalInPage))
                            "title"
          = Some "  Account settings  ".
Proof.
  destruct (setModalA11yAttributes_frame Examples.modalInPage Examples.modal
              eq_refl)
    as (e' & He' & _ & Hkids & _ & _ & _ & Htext).
  exists e'. split_and!; [exact He'|exact Hkids|exact (Htext "title")].
Defined.

(** X7. Without a non-empty [aria-labelledby] on the element,
    [setModalA11yAttributes] does not look anything up: the element it
    leaves behind is the same whatever the document is. A missing attribute
    is never resolved as the id ["null"]. *)
Theorem setModalA11yAttributes_without_reference (w w' : world) (e : element) :
  self w = Some e → self w' = Some e →
  truthy (DOM.getAttribute "aria-labelledby" e) = false →
  self (setModalA11yAttributes w) = self (setModalA11yAttributes w').
Proof.
  intros Hself Hself' Hby.
  rewrite (setModalA11yAttributes_outcome w e Hself),
    (setModalA11yAttributes_outcome w' e Hself').
  unfold modalOutcome. by rewrite Hby.
Qed.

Lemma setModalA11yAttributes_without_reference_witness :
  self (setModalA11yAttributes
          (World Examples.pageWithNullId (Detached Examples.greeting)))
  = self (setModalA11yAttributes
            (World Examples.page (Detached Examples.greeting))).
Proof.
  apply (setModalA11yAttributes_without_reference _ _ Examples.greeting);
    reflexivity.
Defined.

(** X8. After [setModalA11yAttributes] the element carries no
    [aria-labelledby] that resolves: where the attribute is still there,
    [getElementById] finds nothing for its value in the document as the call
    leaves it. *)
Theorem setModalA11yAttributes_no_resolvable_reference (w : world)
    (e e' : element) (i : string) :
  self w = Some e → self (setModalA11yAttributes w) = Some e' →
  DOM.getAttribute "aria-labelledby" e' = Some i →
  getElementById (document (setModalA11yAttributes w)) i = None.
Proof.
  intros Hself He' Hi.
  rewrite (setModalA11yAttributes_outcome w e Hself) in He'.
  injection He' as <-.
  pose proof (setModalA11yAttributes_textById w e i Hself) as Htext.
  unfold textById in Htext.
  assert (DOM.getAttribute "aria-labelledby" (withRoleAndModal e)
          = DOM.getAttribute "aria-labelledby" e) as Hby2
    by by apply withRoleAndModal_getAttribute.
  unfold modalOutcome in Hi.
  destruct (truthy (DOM.getAttribute "aria-labelledby" e)) eqn:Hby.
  - destruct (textById (document w) _) as [t|] eqn:Ht.
    + by rewrite getAttribute_removeAttribute_eq in Hi.
    + rewrite Hby2 in Hi. rewrite Hi in Ht. simpl in Ht.
      unfold textById in Ht. rewrite Ht in Htext.
      by destruct (getElementById (document (setModalA11yAttributes w)) i).
  - assert (DOM.getAttribute "aria-labelledby" e = Some i) as Hi'.
    { destruct (truthy (DOM.getAttribute "aria-label" e)); [congruence|].
      destruct (getFirstHeadline e); [|congruence].
      by rewrite getAttribute_setAttribute_ne, Hby2 in Hi. }
    rewrite Hi' in Hby. apply JSFacts.truthy_false in Hby as [?|[= ->]]; [done|].
    done.
Qed.

Lemma setModalA11yAttributes_no_resolvable_reference_witness :
  getElementById
    (document (setModalA11yAttributes
                 (World Examples.page (Detached Examples.byX)))) "x" = None.
Proof.
  apply (setModalA11yAttributes_no_resolvable_reference
           (World Examples.page (Detached Examples.byX)) Examples.byX
           (Spec.withRoleAndModal Examples.byX) "x"); reflexivity.
Defined.

Lemma withRoleAndModal_role e :
  truthy (DOM.getAttribute "role" (withRoleAndModal e)) = true.
Proof.
  unfold withRoleAndModal. rewrite getAttribute_setAttribute_ne by done.
  destruct (truthy (DOM.getAttribute "role" e)) eqn:Hrole; cbn [negb]; [done|].
  by rewrite getAttribute_setAttribute_eq.
Qed.

Lemma withRoleAndModal_stable e :
  truthy (DOM.getAttribute "role" e) = true →
  DOM.getAttribute "aria-modal" e = Some "true" →
  withRoleAndModal e = e.
Proof.
  intros Hrole Hmodal. unfold withRoleAndModal. rewrite Hrole. cbn [negb].
  by apply setAttribute_same.
Qed.

(** A second pass over the outcome of a first one changes nothing, unless
    the first pass wrote an empty label from a reference and there is a
    heading to take its place. *)
Lemma modalOutcome_again text text' e :
  (∀ i, text' i = text i) →
  (∀ t, truthy (DOM.getAttribute "aria-labelledby" e) = true →
        text (ToString (DOM.getAttribute "aria-labelledby" e)) = Some t →
        trim t = "" → getFirstHeadline e = None) →
  modalOutcome text' (modalOutcome text e) = modalOutcome text e.
Proof.
  intros Htext Hblank.
  pose proof (withRoleAndModal_role e) as Hrole.
  assert (DOM.getAttribute "aria-modal" (withRoleAndModal e) = Some "true")
    as Hmodal by apply getAttribute_setAttribute_eq.
  pose proof (withRoleAndModal_getAttribute e "aria-label"
                ltac:(done) ltac:(done)) as Hl.
  pose proof (withRoleAndModal_getAttribute e "aria-labelledby"
                ltac:(done) ltac:(done)) as Hb.
  pose proof (getFirstHeadline_children e (withRoleAndModal e)
                (proj2 (withRoleAndModal_keeps e))) as Hh.
  pose proof (withRoleAndModal_stable (withRoleAndModal e) Hrole Hmodal) as Hst.
  unfold modalOutcome at 2 3.
  destruct (truthy (DOM.getAttribute "aria-labelledby" e)) eqn:Hby.
  - destruct (text (ToString (DOM.getAttribute "aria-labelledby" e)))
      as [t|] eqn:Ht.
    + set (e1 := DOM.removeAttribute "aria-labelledby"
                   (DOM.setAttribute "aria-label" (trim t) (withRoleAndModal e))).
      assert (withRoleAndModal e1 = e1) as Hst1.
      { apply withRoleAndModal_stable; unfold e1.
        - by rewrite getAttribute_removeAttribute_ne, getAttribute_setAttribute_ne.
        - by rewrite getAttribute_removeAttribute_ne, getAttribute_setAttribute_ne. }
      assert (DOM.getAttribute "aria-labelledby" e1 = None) as Hb1
        by apply getAttribute_removeAttribute_eq.
      assert (DOM.getAttribute "aria-label" e1 = Some (trim t)) as Hl1.
      { unfold e1. rewrite getAttribute_removeAttribute_ne by done.
        apply getAttribute_setAttribute_eq. }
      assert (getFirstHeadline e1 = getFirstHeadline e) as Hh1.
      { apply getFirstHeadline_children. unfold e1.
        rewrite childNodes_removeAttribute, childNodes_setAttribute.
        apply withRoleAndModal_keeps. }
      unfold modalOutcome. rewrite Hst1, Hb1, Hl1, Hh1. simpl.
      destruct (String.eqb (trim t) "") eqn:Hempty; [|done].
      apply String.eqb_eq in Hempty. by rewrite (Hblank t eq_refl eq_refl Hempty).
    + unfold modalOutcome. by rewrite Hst, Hb, Hby, Htext, Ht.
  - destruct (truthy (DOM.getAttribute "aria-label" e)) eqn:Hlabel.
    { unfold modalOutcome. by rewrite Hst, Hb, Hby, Hl, Hlabel. }
    destruct (getFirstHeadline e) as [h|] eqn:Hhead.
    + set (e1 := DOM.setAttribute "aria-label" h (withRoleAndModal e)).
      assert (withRoleAndModal e1 = e1) as Hst1.
      { apply withRoleAndModal_stable; unfold e1.
        all: by rewrite getAttribute_setAttribute_ne. }
      assert (DOM.getAttribute "aria-labelledby" e1
              = DOM.getAttribute "aria-labelledby" e) as Hb1.
      { unfold e1. by rewrite getAttribute_setAttribute_ne. }
      assert (DOM.getAttribute "aria-label" e1 = Some h) as Hl1
        by apply getAttribute_setAttribute_eq.
      unfold modalOutcome. rewrite Hst1, Hb1, Hby, Hl1.
      by rewrite (getFirstHeadline_truthy e h Hhead).
    + unfold modalOutcome. by rewrite Hst, Hb, Hby, Hl, Hlabel, Hh.
Qed.

(** X5. [setModalA11yAttributes] called a second time changes nothing,
    with one exception. The exception is a modal whose non-empty
    [aria-labelledby] resolves to an element with only white space as text,
    and which has a heading with text: the first call then writes an empty
    [aria-label] and removes the reference, and the second call writes the
    text of the first heading that has text, so that the two worlds
    differ. In every other case the world after two calls is the world
    after one. *)
Theorem setModalA11yAttributes_idempotent (w : world) (e : element) :
  self w = Some e →
  ((∀ i r, DOM.getAttribute "aria-labelledby" e = Some i →
           getElementById (document w) i = Some r →
           trim (textContent r) = "" → noHeadingText e) →
   setModalA11yAttributes (setModalA11yAttributes w)
   = setModalA11yAttributes w)
  ∧ (∀ i r text,
       DOM.getAttribute "aria-labelledby" e = Some i →
       getElementById (document w) i = Some r →
       trim (textContent r) = "" → firstHeadingText e text →
       World.getAttribute "aria-label" (setModalA11yAttributes w) = Some ""
       ∧ World.getAttribute "aria-label"
           (setModalA11yAttributes (setModalA11yAttributes w))
         = Some text
       ∧ setModalA11yAttributes (setModalA11yAttributes w)
         ≠ setModalA11yAttributes w).
Proof.
  intros Hself.
  pose proof (setModalA11yAttributes_outcome w e Hself) as Hself1.
  split.
  - intros Hblank.
    rewrite (setModalA11yAttributes_modify _ _ Hself1).
    rewrite (setModalA11yAttributes_modify w e Hself) at 2 3.
    rewrite modify_modify. apply (modify_ext _ _ w e Hself).
    apply modalOutcome_again.
    + intros i. by apply (setModalA11yAttributes_textById w e).
    + intros t Hby Ht Hempty.
      apply JSFacts.truthy_Some in Hby as (i & Hi & _).
      rewrite Hi in Ht. simpl in Ht. unfold textById in Ht.
      destruct (getElementById (document w) i) as [r|] eqn:Hr; [|done].
      injection Ht as <-.
      by apply HeadlineFacts.getFirstHeadline_None, (Hblank i r).
  - intros i r text Hi Hr Hempty Hhead%HeadlineFacts.getFirstHeadline_Some.
    assert (i ≠ "") as Hne.
    { intros ->. unfold getElementById in Hr. by rewrite String.eqb_refl in Hr. }
    set (e1 := modalOutcome (textById (document w)) e) in *.
    assert (e1 = DOM.removeAttribute "aria-labelledby"
                   (DOM.setAttribute "aria-label" "" (withRoleAndModal e)))
      as He1.
    { unfold e1, modalOutcome, textById. rewrite Hi. simpl.
      apply String.eqb_neq in Hne. rewrite Hne. simpl. rewrite Hr. simpl.
      by rewrite Hempty. }
    assert (DOM.getAttribute "aria-label" e1 = Some "") as Hl1.
    { rewrite He1, getAttribute_removeAttribute_ne by done.
      apply getAttribute_setAttribute_eq. }
    assert (DOM.getAttribute "aria-labelledby" e1 = None) as Hb1.
    { rewrite He1. apply getAttribute_removeAttribute_eq. }
    assert (getFirstHeadline e1 = Some text) as Hh1.
    { rewrite <-Hhead. apply getFirstHeadline_children.
      apply (modalOutcome_keeps _ e). }
    pose proof (setModalA11yAttributes_outcome _ e1 Hself1) as Hself2.
    assert (DOM.getAttribute "aria-label"
              (modalOutcome
                 (textById (document (setModalA11yAttributes w))) e1)
            = Some text) as Hl2.
    { unfold modalOutcome. rewrite Hb1, Hl1, Hh1. simpl.
      apply getAttribute_setAttribute_eq. }
    assert (World.getAttribute "aria-label" (setModalA11yAttributes w)
            = Some "") as Hfirst.
    { unfold World.getAttribute. by rewrite Hself1. }
    assert (World.getAttribute "aria-label"
              (setModalA11yAttributes (setModalA11yAttributes w))
            = Some text) as Hsecond.
    { unfold World.getAttribute. by rewrite Hself2. }
    split_and!; [done..|].
    intros Hsame. rewrite Hsame, Hfirst in Hsecond.
    injection Hsecond as <-.
    apply HeadlineFacts.getFirstHeadline_Some in Hhead
      as (_ & _ & _ & _ & _ & _ & _ & Hnonempty & _).
    done.
Qed.

Lemma setModalA11yAttributes_idempotent_witness :
  setModalA11yAttributes (setModalA11yAttributes Examples.modalInPage)
  = setModalA11yAttributes Examples.modalInPage
  ∧ World.getAttribute "aria-label"
      (setModalA11yAttributes Examples.modalByBlank) = Some ""
  ∧ World.getAttribute "aria-label"
      (setModalA11yAttributes (setModalA11yAttributes Examples.modalByBlank))
    = Some "Preferences".
Proof.
  split.
  - apply (setModalA11yAttributes_idempotent Examples.modalInPage
             Examples.modal eq_refl).
    intros i r [= <-] [= <-]. discriminate.
  - destruct (setModalA11yAttributes_idempotent Examples.modalByBlank _ eq_refl)
      as [_ Hexception].
    destruct (Hexception "blank" _ "Preferences" eq_refl eq_refl eq_refl)
      as (Hfirst & Hsecond & _); [|by split].
    exists [], [0], Examples.heading, [].
    split_and!; [reflexivity|right; left; reflexivity|reflexivity|discriminate|].
    by intros q h' ?%elem_of_nil.
Defined.

(** X11. Where the modal has no non-empty [aria-label] and its
    [aria-labelledby] resolves to an element with text,
    [setModalA11yAttributes] does not change the label [getA11yLabel]
    computes: before and after the call it is the trimmed text content of the
    element referred to. *)
Theorem setModalA11yAttributes_keeps_label (fuel : nat) (w : world)
    (e r : element) (i : string) :
  self w = Some e →
  truthy (DOM.getAttribute "aria-label" e) = false →
  DOM.getAttribute "aria-labelledby" e = Some i →
  getElementById (document w) i = Some r →
  trim (textContent r) ≠ "" →
  ∃ e', self (setModalA11yAttributes w) = Some e'
  ∧ getA11yLabel fuel (document w) e = Some (trim (textContent r))
  ∧ getA11yLabel fuel (document (setModalA11yAttributes w)) e'
    = Some (trim (textContent r)).
Proof.
  intros Hself Hlabel Hi Hr Htext.
  eexists. split; [by apply setModalA11yAttributes_outcome|].
  rewrite !LabelMore.getA11yLabel_unfold. unfold getA11yLabel_body.
  split.
  - rewrite Hlabel, Hi. simpl. by rewrite Hr.
  - assert (i ≠ "") as Hne.
    { intros ->. unfold getElementById in Hr. by rewrite String.eqb_refl in Hr. }
    unfold modalOutcome, textById. rewrite Hi. simpl.
    apply String.eqb_neq in Hne. rewrite Hne. simpl. rewrite Hr. simpl.
    rewrite getAttribute_removeAttribute_ne, getAttribute_setAttribute_eq by done.
    simpl. apply String.eqb_neq in Htext. by rewrite Htext.
Qed.

Lemma setModalA11yAttributes_keeps_label_witness :
  ∃ e', self (setModalA11yAttributes Examples.byPaddedInPage) = Some e'
  ∧ getA11yLabel 0 Examples.pageWithNbsp Examples.byPadded = Some "Hello"
  ∧ getA11yLabel 0
      (document (setModalA11yAttributes Examples.byPaddedInPage)) e'
    = Some "Hello".
Proof.
  apply (setModalA11yAttributes_keeps_label 0 Examples.byPaddedInPage
           Examples.byPadded Examples.padded "padded");
    try reflexivity.
  discriminate.
Defined.

End ModalMore.

(** ** More about createA11yButton *)

Module ButtonMore.
Import JS DOM DOMFacts World WorldFacts A11y Spec ButtonClaims.
#[local] Open Scope nat_scope.
#[local] Open Scope list_scope.

Lemma activations_app l1 l2 :
  activations (l1 ++ l2) = activations l1 + activations l2.
Proof. unfold activations. by rewrite list.filter_app, length_app. Qed.

(** Every registered handler answers an activating key with one
    activation, and any other key with nothing. *)
Lemma runListeners_activating element e (l : list listener) :
  activatingKey e →
  activations (l ≫= (λ h, runListener element h e)) = length l.
Proof.
  intros Hkey. induction l as [|[] l IH]; [done|].
  change ((SimulateClick :: l) ≫= (λ h, runListener element h e))
    with (onKeydown element e ++ (l ≫= (λ h, runListener element h e))).
  rewrite activations_app, IH, (onKeydown_activating _ _ Hkey).
  unfold activation. by destruct (hasClick element).
Qed.

Lemma runListeners_other element e (l : list listener) :
  ¬ activatingKey e → l ≫= (λ h, runListener element h e) = [].
Proof.
  intros Hkey. induction l as [|[] l IH]; [done|].
  change ((SimulateClick :: l) ≫= (λ h, runListener element h e))
    with (onKeydown element e ++ (l ≫= (λ h, runListener element h e))).
  by rewrite IH, (onKeydown_other _ _ Hkey).
Qed.

(** X9. Every call of [createA11yButton] on an element that is no native
    button adds one handler, and no call removes one: after [n] calls the
    element has [n] handlers more than before, one press of an activating
    key activates it once for each handler it has, and any other key still
    does nothing. The tag and the [click] method of the element stay. *)
Theorem createA11yButton_iter (options : option string) (w : world)
    (element : element) (e : keyEvent) (n : nat) :
  self w = Some element → tagName element ≠ "BUTTON" →
  let wn := Nat.iter n (createA11yButton options) w in
  ∃ en, self wn = Some en
  ∧ tagName en = tagName element ∧ hasClick en = hasClick element
  ∧ listeners en = listeners element ++ replicate n SimulateClick
  ∧ (activatingKey e →
     activations (keydown e wn) = length (listeners element) + n)
  ∧ (¬ activatingKey e → keydown e wn = []).
Proof.
  intros Hself Htag. cbv zeta.
  assert (∃ en, self (Nat.iter n (createA11yButton options) w) = Some en
          ∧ tagName en = tagName element ∧ hasClick en = hasClick element
          ∧ listeners en = listeners element ++ replicate n SimulateClick)
    as (en & Hen & Htagn & Hclick & Hlisteners).
  { induction n as [|n (en & Hen & Htagn & Hclick & Hl)]; simpl.
    - exists element. by rewrite app_nil_r.
    - exists (promoted options en).
      split; [apply createA11yButton_self; [done|by rewrite Htagn]|].
      rewrite tagName_promoted, hasClick_promoted, listeners_promoted, Hl.
      split_and!; try done.
      rewrite <-app_assoc. f_equal.
      change (replicate n SimulateClick ++ [SimulateClick]
              = replicate (S n) SimulateClick).
      by rewrite replicate_S_end. }
  exists en. split_and!; try done.
  - intros Hkey. rewrite (keydown_self e _ _ Hen), runListeners_activating by done.
    by rewrite Hlisteners, length_app, length_replicate.
  - intros Hkey. rewrite (keydown_self e _ _ Hen). by apply runListeners_other.
Qed.

Lemma createA11yButton_iter_witness :
  activations
    (keydown Examples.enter
       (Nat.iter 3 (createA11yButton None) Examples.plainDiv)) = 3.
Proof.
  destruct (createA11yButton_iter None Examples.plainDiv _ Examples.enter 3
              eq_refl)
    as (en & _ & _ & _ & _ & Hkeys & _); [discriminate|].
  apply Hkeys. by left.
Defined.

(** The whole effect of [createA11yButton] on an element that is no native
    button is one write to the element. *)
Lemma createA11yButton_modify options w e :
  self w = Some e → tagName e ≠ "BUTTON" →
  createA11yButton options w = modify (promoted options) w.
Proof.
  intros Hself Htag%String.eqb_neq. unfold createA11yButton.
  rewrite Hself, Htag, (getAttribute_Some w e) by done.
  unfold World.addEventListener, World.setAttribute.
  destruct (negb _) eqn:Hrole; rewrite !modify_modify.
  all: apply (modify_ext _ _ w e Hself); unfold promoted; by rewrite Hrole.
Qed.

Lemma promoted_keeps options : keepsIdAndChildren (promoted options).
Proof.
  intros e. unfold promoted.
  destruct (negb _); destruct e as [t a h l kids]; unfold DOM.getAttribute; simpl.
  all: by rewrite !lookup_insert_ne.
Qed.

(** X12. [createA11yButton] does not change the label [getA11yLabel]
    computes for the element: it writes [role] and [tabindex] and adds a
    listener, and the label depends on none of them. This holds for the
    element in the document as well, where the write changes the document
    the label is computed in. *)
Theorem createA11yButton_keeps_label (fuel : nat) (options : option string)
    (w : world) (e : element) :
  self w = Some e →
  ∃ e', self (createA11yButton options w) = Some e'
  ∧ getA11yLabel fuel (document (createA11yButton options w)) e'
    = getA11yLabel fuel (document w) e.
Proof.
  intros Hself.
  destruct (decide (tagName e = "BUTTON")) as [Htag|Htag].
  { exists e. by rewrite (createA11yButton_button options w e). }
  exists (promoted options e).
  split; [by apply createA11yButton_self|].
  rewrite (createA11yButton_modify options w e) by done.
  rewrite (LabelMore.getA11yLabel_document fuel _ (document w)).
  2: { intros i. apply getElementById_modify, promoted_keeps. }
  apply LabelMore.getA11yLabel_root.
  - rewrite getAttribute_promoted, getAttribute_setAttribute_ne by done.
    destruct (negb _); [|done]. by apply getAttribute_setAttribute_ne.
  - rewrite getAttribute_promoted, getAttribute_setAttribute_ne by done.
    destruct (negb _); [|done]. by apply getAttribute_setAttribute_ne.
  - apply promoted_keeps.
Qed.

Lemma createA11yButton_keeps_label_witness :
  ∃ e', self (createA11yButton None Examples.modalByReferenceInPage) = Some e'
  ∧ getA11yLabel 0
      (document (createA11yButton None Examples.modalByReferenceInPage)) e'
    = Some "Account settings".
Proof.
  destruct (createA11yButton_keeps_label 0 None Examples.modalByReferenceInPage
              Examples.modalByReference eq_refl) as (e' & He' & Hlabel).
  exists e'. split; [exact He'|]. rewrite Hlabel. reflexivity.
Defined.

Lemma role_modalOutcome text e :
  DOM.getAttribute "role" (modalOutcome text e)
  = DOM.getAttribute "role" (withRoleAndModal e).
Proof.
  unfold modalOutcome.
  repeat match goal with
         | |- context [if ?b then _ else _] => destruct b
         | |- context [match ?o with Some _ => _ | None => _ end] => destruct o
         end.
  all: by rewrite ?getAttribute_removeAttribute_ne,
            ?getAttribute_setAttribute_ne by done.
Qed.

Lemma tagName_modalOutcome text e : tagName (modalOutcome text e) = tagName e.
Proof.
  unfold modalOutcome, withRoleAndModal.
  repeat match goal with
         | |- context [if ?b then _ else _] => destruct b
         | |- context [match ?o with Some _ => _ | None => _ end] => destruct o
         end.
  all: by destruct e.
Qed.

(** X14. Of [setModalA11yAttributes] and [createA11yButton], the one that
    runs first decides the role. After [setModalA11yAttributes] the role is
    never empty, and a call of [createA11yButton] that follows leaves it as
    it is, whatever role it is configured with. After [createA11yButton]
    with a non-empty configured role, on an element that is no native
    button, a call of [setModalA11yAttributes] that follows leaves the role
    as it is and does not make it ["dialog"]. *)
Theorem role_first_call_wins (options : option string) (w : world) (e : element) :
  self w = Some e →
  (∃ e1 e2, self (setModalA11yAttributes w) = Some e1
     ∧ self (createA11yButton options (setModalA11yAttributes w)) = Some e2
     ∧ truthy (DOM.getAttribute "role" e1) = true
     ∧ DOM.getAttribute "role" e2 = DOM.getAttribute "role" e1)
  ∧ (tagName e ≠ "BUTTON" → default "button" options ≠ "" →
     ∃ e1 e2, self (createA11yButton options w) = Some e1
       ∧ self (setModalA11yAttributes (createA11yButton options w)) = Some e2
       ∧ truthy (DOM.getAttribute "role" e1) = true
       ∧ DOM.getAttribute "role" e2 = DOM.getAttribute "role" e1).
Proof.
  intros Hself. split.
  - pose proof (ModalMore.setModalA11yAttributes_outcome w e Hself) as H1.
    set (e1 := modalOutcome (textById (document w)) e) in *.
    assert (truthy (DOM.getAttribute "role" e1) = true) as Hrole.
    { unfold e1. rewrite role_modalOutcome. apply ModalMore.withRoleAndModal_role. }
    exists e1. destruct (decide (tagName e1 = "BUTTON")) as [Htag|Htag].
    + exists e1. by rewrite (createA11yButton_button options _ e1).
    + exists (promoted options e1).
      split; [done|]. split; [by apply createA11yButton_self|].
      split; [done|]. by rewrite role_promoted, Hrole.
  - intros Htag Hoptions.
    pose proof (createA11yButton_self options w e Hself Htag) as H1.
    assert (truthy (DOM.getAttribute "role" (promoted options e)) = true) as Hrole.
    { rewrite role_promoted.
      destruct (truthy (DOM.getAttribute "role" e)) eqn:H; [done|].
      apply JSFacts.truthy_Some. by eexists. }
    exists (promoted options e). eexists.
    split; [done|].
    split; [by apply ModalMore.setModalA11yAttributes_outcome|].
    split; [done|].
    rewrite role_modalOutcome. unfold withRoleAndModal.
    rewrite getAttribute_setAttribute_ne by done. by rewrite Hrole.
Qed.

Lemma role_first_call_wins_witness :
  (World.getAttribute "role"
     (createA11yButton None (setModalA11yAttributes Examples.plainDiv))
   = Some "dialog")
  ∧ World.getAttribute "role"
      (setModalA11yAttributes (createA11yButton None Examples.plainDiv))
    = Some "button".
Proof.
  destruct (role_first_call_wins None Examples.plainDiv _ eq_refl)
    as [(e1 & e2 & H1 & H2 & _ & Hrole) Hsecond].
  destruct Hsecond as (e1' & e2' & H1' & H2' & _ & Hrole');
    [discriminate..|].
  split.
  - unfold World.getAttribute. rewrite H2. simpl. rewrite Hrole.
    injection H1 as <-. reflexivity.
  - unfold World.getAttribute. rewrite H2'. simpl. rewrite Hrole'.
    injection H1' as <-. reflexivity.
Defined.

End ButtonMore.

(** ** More about addIdToElement *)

Module IdMore.
Import JS DOM DOMFacts World WorldFacts A11y.
#[local] Open Scope list_scope.

Lemma firstOf_None_child (rec : element → option element) (ns : list node) j c :
  firstOf rec ns = None → ns !! j = Some (ElemNode c) → rec c = None.
Proof.
  revert j. induction ns as [|n ns IH]; intros j; simpl; [done|].
  destruct n as [d|k].
  - intros Hnone. destruct j as [|j]; simpl; [done|]. by apply IH.
  - destruct (rec k) eqn:Hk; [done|]. intros Hnone.
    destruct j as [|j]; simpl; [by intros [= <-]|]. by apply IH.
Qed.

Lemma firstOf_insert_found (rec : element → option element) (ns : list node)
    j c c' r :
  ns !! j = Some (ElemNode c) → firstOf rec ns = None → rec c' = Some r →
  firstOf rec (<[j := ElemNode c']> ns) = Some r.
Proof.
  revert j. induction ns as [|n ns IH]; intros j; simpl; [done|].
  destruct j as [|j]; simpl.
  - intros [= ->] _ ->. done.
  - intros Hj Hnone Hr. destruct n as [d|k]; [by apply IH|].
    destruct (rec k); [done|]. by apply IH.
Qed.

(** An id no element has is found at the element it is given to. *)
Lemma findById_updateAt_fresh i p doc e :
  nodeAt p doc = Some e → findById i doc = None →
  findById i (updateAt p (DOM.setAttribute "id" i) doc)
  = Some (DOM.setAttribute "id" i e).
Proof.
  revert doc. induction p as [|j p IH]; intros [t a h l kids]; simpl.
  - intros [= <-] _. simpl. rewrite lookup_insert_eq.
    by rewrite bool_decide_eq_true_2.
  - destruct (kids !! j) as [[d|c]|] eqn:Hj; try done.
    intros He. case_bool_decide as Hroot; [done|]. intros Hnone. simpl.
    rewrite bool_decide_eq_false_2 by done.
    eapply firstOf_insert_found; [done..|].
    apply IH; [done|]. by eapply firstOf_None_child.
Qed.

Lemma textContent_updateAt_children p f e :
  (∀ x, childNodes (f x) = childNodes x) →
  textContent (updateAt p f e) = textContent e.
Proof.
  intros Hf. revert e. induction p as [|i p IH]; intros e; simpl.
  - specialize (Hf e). destruct e, (f _). simpl in *. by subst.
  - destruct e as [t a h l kids]. simpl.
    destruct (kids !! i) as [[d|c]|] eqn:Hi; try done.
    simpl. eapply textOf_insert; [done|apply IH].
Qed.

(** A write to the [id] of an element that neither has the id [i] nor gets
    it leaves the text found for [i] as it was. *)
Lemma findById_updateAt_other i p f doc e :
  nodeAt p doc = Some e →
  (∀ x, childNodes (f x) = childNodes x) →
  DOM.getAttribute "id" e ≠ Some i → DOM.getAttribute "id" (f e) ≠ Some i →
  textContent <$> findById i (updateAt p f doc) = textContent <$> findById i doc.
Proof.
  intros He Hkids Hold Hnew. revert doc He.
  induction p as [|j p IH]; intros doc He.
  - simpl in *. injection He as ->. specialize (Hkids e).
    destruct e as [t a h l kids], (f _) as [t' a' h' l' kids'].
    unfold DOM.getAttribute in *. simpl in *. subst kids'.
    by rewrite !bool_decide_eq_false_2.
  - destruct doc as [t a h l kids]. simpl in *.
    destruct (kids !! j) as [[d|c]|] eqn:Hj; try done.
    simpl. case_bool_decide; simpl.
    + f_equal. eapply textOf_insert; [done|].
      by apply textContent_updateAt_children.
    + eapply firstOf_insert; [done|]. by apply IH.
Qed.

(** X10. An identifier given by [addIdToElement] can be used at once: for
    an element of the document whose [id] property is falsy (no non-empty
    [id] attribute, and no form control named ["id"] in its place), and a
    non-empty identifier that no element of the document has as its id,
    [getElementById] finds, after the call, the element itself under the
    new identifier. For every other id the text of the element found is the
    same as before the call. *)
Theorem addIdToElement_getElementById (uuid : string) (doc : element)
    (p : path) (e : element) :
  nodeAt p doc = Some e → truthyValue (id e) = false → uuid ≠ "" →
  getElementById doc uuid = None →
  let w' := addIdToElement uuid (World doc (Attached p)) in
  self w' = Some (DOM.setAttribute "id" uuid e)
  ∧ getElementById (document w') uuid = self w'
  ∧ ∀ i, i ≠ uuid →
      textContent <$> getElementById (document w') i
      = textContent <$> getElementById doc i.
Proof.
  intros He Hid Huuid Hfresh. cbv zeta.
  assert (self (World doc (Attached p)) = Some e) as Hself by done.
  assert (addIdToElement uuid (World doc (Attached p))
          = World (updateAt p (DOM.setAttribute "id" uuid) doc) (Attached p))
    as ->.
  { unfold addIdToElement. rewrite Hself, Hid. done. }
  unfold getElementById in *. apply String.eqb_neq in Huuid as Huuid'.
  rewrite Huuid' in *. unfold self. simpl.
  rewrite (nodeAt_updateAt _ _ _ _ He).
  split; [done|]. split; [by apply findById_updateAt_fresh|].
  intros i Hi. destruct (String.eqb i "") eqn:Hempty; [done|].
  apply String.eqb_neq in Hempty.
  apply (findById_updateAt_other i p _ doc e He).
  - intros x. apply childNodes_setAttribute.
  - unfold id in Hid. destruct (controlNamedId e); [done|].
    destruct (DOM.getAttribute "id" e) as [s|]; [|done]. simpl in Hid.
    apply negb_false_iff, String.eqb_eq in Hid. congruence.
  - rewrite getAttribute_setAttribute_eq. congruence.
Qed.

Lemma addIdToElement_getElementById_witness :
  let w' := addIdToElement "3b241101-e2bb-4255-8caf-4136c566a962"
              Examples.modalInPage in
  getElementById (document w') "3b241101-e2bb-4255-8caf-4136c566a962" = self w'
  ∧ textContent <$> getElementById (document w') "title"
    = Some "  Account settings  ".
Proof.
  destruct (addIdToElement_getElementById
              "3b241101-e2bb-4255-8caf-4136c566a962"
              Examples.page [1] Examples.modal eq_refl eq_refl)
    as (_ & Hfound & Hother); [discriminate|reflexivity|].
  split; [exact Hfound|].
  refine (eq_trans (Hother "title" _) _); [discriminate|reflexivity].
Defined.

End IdMore.
